(** * juce_Line.h: the 2D line-segment geometry of JUCE, embedded and verified

    The C++ class [Line<ValueType>] is a template over its coordinate type.
    The embedding keeps that shape: every method is written once, over an
    interface [ValueType] of scalar operations, and the interface is then
    instantiated twice,

    - at the real numbers (module [Exact]), where the algebraic properties of
      the algorithms are proved, and
    - at IEEE-754 binary64 (module [Binary64]), the C++ [double], where the
      methods run and the scenarios can be evaluated.

    Where the two disagree on a finite input, module [Rounded] runs the
    binary64 instance next to the exact one.

    A quotient by zero is the one place where the two differ in kind: IEEE
    arithmetic answers with an infinity or a NaN, the exact field has no value
    to give.  The interface therefore makes division fallible ([option]); the
    methods thread that through a small error monad, so that "this method
    never divides by zero" is the statement that it returns [Some]. *)

From Stdlib Require Import Floats.
From Stdlib Require Import Bool ZArith List Lia Reals Lra Psatz.

Set Implicit Arguments.

(** ** Error monad for fallible division *)

Definition bind {A B : Type} (m : option A) (k : A -> option B) : option B :=
  match m with
  | Some a => k a
  | None => None
  end.

Definition ret {A : Type} (a : A) : option A := Some a.

Declare Scope vt_monad_scope.
Delimit Scope vt_monad_scope with vtm.
Notation "'let*' a ':=' m 'in' k" := (bind m (fun a => k))
  (at level 10, a name, m at level 100, k at level 200) : vt_monad_scope.
Open Scope vt_monad_scope.

(** ** The coordinate type

    What the template asks of [ValueType]: the literals 0, 1 and 2, the four
    arithmetic operators, the comparisons [==], [<] and [<=] (C++ [a > b] is
    [b < a], [a >= b] is [b <= a], [a != b] is the negation of [a == b]),
    libm's [hypot], and the narrowing conversion to C++ [float] that
    [getDistanceFromPoint] applies to its two end-point distances.  The
    widening conversions to [double] in the source are the identity at both
    instances below and are not represented. *)

Class ValueType (V : Type) : Type := {
  v0 : V;
  v1 : V;
  v2 : V;
  vadd : V -> V -> V;
  vsub : V -> V -> V;
  vmul : V -> V -> V;
  vdiv : V -> V -> option V;
  veqb : V -> V -> bool;
  vltb : V -> V -> bool;
  vleb : V -> V -> bool;
  hypot : V -> V -> V;
  to_float : V -> V
}.

Declare Scope vt_scope.
Delimit Scope vt_scope with vt.
Infix "+" := vadd : vt_scope.
Infix "-" := vsub : vt_scope.
Infix "*" := vmul : vt_scope.
Infix "/" := vdiv : vt_scope.
Infix "==" := veqb (at level 70, no associativity) : vt_scope.
Notation "a != b" := (negb (veqb a b)) (at level 70, no associativity) : vt_scope.
Infix "<" := vltb : vt_scope.
Infix "<=" := vleb : vt_scope.
Notation "a > b" := (vltb b a) : vt_scope.
Notation "a >= b" := (vleb b a) : vt_scope.

Section Template.

Context {V : Type} {VT : ValueType V}.
Local Open Scope vt_scope.

(** ** juce_MathsFunctions.h *)

(** [jmin (a, b)]: [(b < a) ? b : a]. *)
Definition jmin (a b : V) : V := if b < a then b else a.

(** [jmax (a, b)]: [(a < b) ? b : a]. *)
Definition jmax (a b : V) : V := if a < b then b else a.

(** [jlimit (lowerLimit, upperLimit, valueToConstrain)].  The [jassert] on
    the order of the limits is a debug-build check; the one call in
    juce_Line.h passes the literals 0 and 1. *)
Definition jlimit (lowerLimit upperLimit valueToConstrain : V) : V :=
  if valueToConstrain < lowerLimit then lowerLimit
  else if upperLimit < valueToConstrain then upperLimit
  else valueToConstrain.

(** [juce_hypot (a, b)]: a cast of the platform's [hypot]. *)
Definition juce_hypot (a b : V) : V := hypot a b.

(** ** Point *)

(** Modelled from the spec: juce_Point.h, which juce_Line.h includes, is not
    among the sources.  The spec gives a point as an ordered pair (x, y) of
    the coordinate type with component-wise equality; the operators and
    helpers that juce_Line.h calls on it are the component-wise ones their
    names say, and [getDistanceFrom] is the Euclidean distance that the spec
    gives for [length()], through [juce_hypot]. *)
Record Point : Type := mkPoint { x : V; y : V }.

(** Modelled from the spec: [Point::operator==], component-wise. *)
Definition Point_eq (a b : Point) : bool := (x a == x b) && (y a == y b).

(** Modelled from the spec: [Point::operator+]. *)
Definition Point_plus (a b : Point) : Point := mkPoint (x a + x b) (y a + y b).

(** Modelled from the spec: [Point::operator-]. *)
Definition Point_minus (a b : Point) : Point := mkPoint (x a - x b) (y a - y b).

(** Modelled from the spec: [Point::operator* (ValueType)]. *)
Definition Point_times (a : Point) (m : V) : Point := mkPoint (x a * m) (y a * m).

(** Modelled from the spec: [Point::operator/ (ValueType)]. *)
Definition Point_divide (a : Point) (d : V) : option Point :=
  let* qx := x a / d in
  let* qy := y a / d in
  ret (mkPoint qx qy).

(** Modelled from the spec: [Point::isOrigin], both coordinates equal to
    [ValueType()]. *)
Definition isOrigin (a : Point) : bool := (x a == v0) && (y a == v0).

(** Modelled from the spec: [Point::withX] and [Point::withY]. *)
Definition withX (a : Point) (newX : V) : Point := mkPoint newX (y a).
Definition withY (a : Point) (newY : V) : Point := mkPoint (x a) newY.

(** Modelled from the spec: [Point::getDistanceFrom]. *)
Definition getDistanceFrom (a other : Point) : V :=
  juce_hypot (x a - x other) (y a - y other).

(** ** Line *)

Record Line : Type := mkLine { start : Point; end_ : Point }.

Definition reversed (l : Line) : Line := mkLine (end_ l) (start l).

Definition getLength (l : Line) : V := getDistanceFrom (start l) (end_ l).

Definition isVertical (l : Line) : bool := x (start l) == x (end_ l).

Definition isHorizontal (l : Line) : bool := y (start l) == y (end_ l).

(** [Line::operator==]. *)
Definition Line_eq (a b : Line) : bool :=
  Point_eq (start a) (start b) && Point_eq (end_ a) (end_ b).

(** [along >= 0 && along <= (ValueType) 1], the test that closes every branch
    of [findIntersection]. *)
Definition within01 (along : V) : bool := (along >= v0) && (along <= v1).

(** [Line::findIntersection (p1, p2, p3, p4, intersection)].  The reference
    parameter [intersection] is assigned on every path before the function
    returns, so the model returns it next to the boolean. *)
Definition findIntersection (p1 p2 p3 p4 : Point) : option (bool * Point) :=
  if Point_eq p2 p3 then ret (true, p2)
  else
    let d1 := Point_minus p2 p1 in
    let d2 := Point_minus p4 p3 in
    let divisor := x d1 * y d2 - x d2 * y d1 in
    (* the two statements after the axis-aligned cases, reached whenever none
       of them returns *)
    let fallback :=
      let* mid := Point_divide (Point_plus p2 p3) v2 in
      ret (false, mid) in
    if divisor == v0 then
      if negb (isOrigin d1 || isOrigin d2) then
        if (y d1 == v0) && (y d2 != v0) then
          let* along := (y p1 - y p3) / y d2 in
          ret (within01 along, withX p1 (x p3 + along * x d2))
        else if (y d2 == v0) && (y d1 != v0) then
          let* along := (y p3 - y p1) / y d1 in
          ret (within01 along, withX p3 (x p1 + along * x d1))
        else if (x d1 == v0) && (x d2 != v0) then
          let* along := (x p1 - x p3) / x d2 in
          ret (within01 along, withY p1 (y p3 + along * y d2))
        else if (x d2 == v0) && (x d1 != v0) then
          let* along := (x p3 - x p1) / x d1 in
          ret (within01 along, withY p3 (y p1 + along * y d1))
        else fallback
      else fallback
    else
      let* along1 := ((y p1 - y p3) * x d2 - (x p1 - x p3) * y d2) / divisor in
      let intersection := Point_plus p1 (Point_times d1 along1) in
      if (along1 < v0) || (along1 > v1) then ret (false, intersection)
      else
        let* along2 := ((y p1 - y p3) * x d1 - (x p1 - x p3) * y d1) / divisor in
        ret (within01 along2, intersection).

(** [Line::intersects (line, intersection)]. *)
Definition intersects (l line : Line) : option (bool * Point) :=
  findIntersection (start l) (end_ l) (start line) (end_ line).

(** [Line::getIntersection (line)]. *)
Definition getIntersection (l line : Line) : option Point :=
  let* r := findIntersection (start l) (end_ l) (start line) (end_ line) in
  ret (snd r).

(** [Line::getPointAlongLine (distanceFromStart)]:
    [start + (end - start) * (distanceFromStart / getLength())]. *)
Definition getPointAlongLine (l : Line) (distanceFromStart : V) : option Point :=
  let* q := distanceFromStart / getLength l in
  ret (Point_plus (start l) (Point_times (Point_minus (end_ l) (start l)) q)).

(** [Line::getPointAlongLine (distanceFromStart, perpendicularDistance)], the
    two-argument overload. *)
Definition getPointAlongLine2 (l : Line) (distanceFromStart perpendicularDistance : V)
  : option Point :=
  let delta := Point_minus (end_ l) (start l) in
  let length := juce_hypot (x delta) (y delta) in
  if length <= v0 then ret (start l)
  else
    let* qx := (x delta * distanceFromStart - y delta * perpendicularDistance) / length in
    let* qy := (y delta * distanceFromStart + x delta * perpendicularDistance) / length in
    ret (mkPoint (x (start l) + qx) (y (start l) + qy)).

(** [Line::getPointAlongLineProportionally (proportionOfLength)]. *)
Definition getPointAlongLineProportionally (l : Line) (proportionOfLength : V) : Point :=
  Point_plus (start l) (Point_times (Point_minus (end_ l) (start l)) proportionOfLength).

(** [Line::getDistanceFromPoint (targetPoint, pointOnLine)].  The result is
    the returned distance paired with the value left in [pointOnLine]. *)
Definition getDistanceFromPoint (l : Line) (targetPoint : Point) : option (V * Point) :=
  let delta := Point_minus (end_ l) (start l) in
  let length := x delta * x delta + y delta * y delta in
  let endpoints :=
    let fromStart := to_float (getDistanceFrom targetPoint (start l)) in
    let fromEnd := to_float (getDistanceFrom targetPoint (end_ l)) in
    if fromStart < fromEnd then ret (fromStart, start l)
    else ret (fromEnd, end_ l) in
  if length > v0 then
    let* prop := ((x targetPoint - x (start l)) * x delta
                  + (y targetPoint - y (start l)) * y delta) / length in
    if (prop >= v0) && (prop <= v1) then
      let pointOnLine := Point_plus (start l) (Point_times delta prop) in
      ret (getDistanceFrom targetPoint pointOnLine, pointOnLine)
    else endpoints
  else endpoints.

(** [Line::findNearestProportionalPositionTo (point)]. *)
Definition findNearestProportionalPositionTo (l : Line) (point : Point) : option V :=
  let delta := Point_minus (end_ l) (start l) in
  let length := x delta * x delta + y delta * y delta in
  if length <= v0 then ret v0
  else
    let* q := ((x point - x (start l)) * x delta
               + (y point - y (start l)) * y delta) / length in
    ret (jlimit v0 v1 q).

(** [Line::findNearestPointTo (point)]. *)
Definition findNearestPointTo (l : Line) (point : Point) : option Point :=
  let* t := findNearestProportionalPositionTo l point in
  ret (getPointAlongLineProportionally l t).

(** [Line::isPointAbove (point)].  The [&&] of the source does not evaluate
    its right operand, and so does not divide, when the line is vertical. *)
Definition isPointAbove (l : Line) (point : Point) : option bool :=
  if x (start l) != x (end_ l) then
    let* q := ((y (end_ l) - y (start l)) * (x point - x (start l)))
              / (x (end_ l) - x (start l)) in
    ret (y point < q + y (start l))
  else ret false.

(** [Line::withShortenedStart (distanceToShortenBy)]. *)
Definition withShortenedStart (l : Line) (distanceToShortenBy : V) : option Line :=
  let* p := getPointAlongLine l (jmin distanceToShortenBy (getLength l)) in
  ret (mkLine p (end_ l)).

(** [Line::withShortenedEnd (distanceToShortenBy)]. *)
Definition withShortenedEnd (l : Line) (distanceToShortenBy : V) : option Line :=
  let length := getLength l in
  let* p := getPointAlongLine l (length - jmin distanceToShortenBy length) in
  ret (mkLine (start l) p).

End Template.

Arguments Point V : clear implicits.
Arguments Line V : clear implicits.

(** ** The binary64 instance: [ValueType = double] *)

Module Binary64.

(** Rounding of a binary64 value to the nearest binary32 value (ties to
    even), the effect of storing a [double] in a C++ [float]; every binary32
    value is a binary64 value, so the result is again held as a binary64. *)
Definition round_to_float (f : float) : float :=
  match Prim2SF f with
  | S754_finite s m e => SF2Prim (binary_round 24 128 s m e)
  | _ => f
  end.

(** libm's [hypot] is outside the sources; the instance takes the square root
    of the sum of the squares, which is what [hypot] returns whenever the
    squares and their sum are exact, as they are in the scenarios below. *)
#[global] Instance double : ValueType float := {|
  v0 := 0%float;
  v1 := 1%float;
  v2 := 2%float;
  vadd := PrimFloat.add;
  vsub := PrimFloat.sub;
  vmul := PrimFloat.mul;
  vdiv := fun a b => Some (PrimFloat.div a b);
  veqb := PrimFloat.eqb;
  vltb := PrimFloat.ltb;
  vleb := PrimFloat.leb;
  hypot := fun a b => PrimFloat.sqrt (a * a + b * b)%float;
  to_float := round_to_float
|}.

Definition pt (a b : float) : Point float := mkPoint a b.
Definition seg (a b c d : float) : Line float := mkLine (pt a b) (pt c d).

End Binary64.

(** ** The exact instance: [ValueType] = the real numbers *)

Module Exact.

Local Open Scope R_scope.

Definition R_eqb (a b : R) : bool := if Req_dec_T a b then true else false.
Definition R_ltb (a b : R) : bool := if Rlt_dec a b then true else false.
Definition R_leb (a b : R) : bool := if Rle_dec a b then true else false.

(** A quotient exists when the divisor is not zero. *)
Definition R_div (a b : R) : option R :=
  if R_eqb b 0 then None else Some (a / b).

(** No rounding: the narrowing conversion is the identity, and [hypot] is
    the exact Euclidean norm. *)
#[global] Instance real : ValueType R := {|
  v0 := 0;
  v1 := 1;
  v2 := 2;
  vadd := Rplus;
  vsub := Rminus;
  vmul := Rmult;
  vdiv := R_div;
  veqb := R_eqb;
  vltb := R_ltb;
  vleb := R_leb;
  hypot := fun a b => sqrt (a * a + b * b);
  to_float := fun a => a
|}.

Definition pt (a b : R) : Point R := mkPoint a b.
Definition seg (a b c d : R) : Line R := mkLine (pt a b) (pt c d).

(** The closed unit interval, as a proposition. *)
Definition in01 (t : R) : Prop := 0 <= t <= 1.

(** The cross product of the two direction vectors, the [divisor] of
    [findIntersection]. *)
Definition cross (p1 p2 p3 p4 : Point R) : R :=
  (x p2 - x p1) * (y p4 - y p3) - (x p4 - x p3) * (y p2 - y p1).

(** The mid-point of two points. *)
Definition midpoint (a b : Point R) : Point R :=
  mkPoint ((x a + x b) / 2) ((y a + y b) / 2).

(** Euclidean distance. *)
Definition dist (a b : Point R) : R :=
  sqrt ((x a - x b) * (x a - x b) + (y a - y b) * (y a - y b)).

(** The parametric positions of the meeting point of the two lines, on the
    first and on the second: the solution, by Cramer's rule, of
    [p1 + d1 * along1 = p3 + d2 * along2]. *)
Definition along1 (p1 p2 p3 p4 : Point R) : R :=
  ((y p1 - y p3) * (x p4 - x p3) - (x p1 - x p3) * (y p4 - y p3))
  / cross p1 p2 p3 p4.

Definition along2 (p1 p2 p3 p4 : Point R) : R :=
  ((y p1 - y p3) * (x p2 - x p1) - (x p1 - x p3) * (y p2 - y p1))
  / cross p1 p2 p3 p4.

(** The projection fraction of [p] on the line through [l]: the spec's
    [t = ((p - start) . (end - start)) / |end - start|^2]. *)
Definition proj_fraction (l : Line R) (p : Point R) : R :=
  ((x p - x (start l)) * (x (end_ l) - x (start l))
   + (y p - y (start l)) * (y (end_ l) - y (start l)))
  / ((x (end_ l) - x (start l)) * (x (end_ l) - x (start l))
     + (y (end_ l) - y (start l)) * (y (end_ l) - y (start l))).

(** The boolean a call reports, if it returns. *)
Definition outcome (r : option (bool * Point R)) : option bool :=
  option_map fst r.

(** The two calls [A.intersects (B)] and [B.intersects (A)] report the same
    boolean. *)
Definition intersect_symmetric (A B : Line R) : Prop :=
  outcome (intersects A B) = outcome (intersects B A).

(** One of the four axis-aligned cases of the parallel branch of
    [findIntersection] applies: neither direction is the zero vector
    ([isOrigin]), and one direction is horizontal and the other not, or one
    is vertical and the other not. *)
Definition axis_resolution (p1 p2 p3 p4 : Point R) : Prop :=
  let d1 := Point_minus p2 p1 in
  let d2 := Point_minus p4 p3 in
  ~ (x d1 = 0 /\ y d1 = 0) /\ ~ (x d2 = 0 /\ y d2 = 0) /\
  ((y d1 = 0 /\ y d2 <> 0) \/ (y d2 = 0 /\ y d1 <> 0) \/
   (x d1 = 0 /\ x d2 <> 0) \/ (x d2 = 0 /\ x d1 <> 0)).

(** *** The comparisons decide the order of the reals *)

Lemma R_eqb_spec (a b : R) : reflect (a = b) (R_eqb a b).
Proof. unfold R_eqb. destruct (Req_dec_T a b); constructor; assumption. Qed.

Lemma R_ltb_spec (a b : R) : reflect (a < b) (R_ltb a b).
Proof. unfold R_ltb. destruct (Rlt_dec a b); constructor; assumption. Qed.

Lemma R_leb_spec (a b : R) : reflect (a <= b) (R_leb a b).
Proof. unfold R_leb. destruct (Rle_dec a b); constructor; assumption. Qed.

Lemma R_eqb_refl (a : R) : R_eqb a a = true.
Proof. destruct (R_eqb_spec a a); congruence. Qed.

Lemma R_eqb_neq (a b : R) : a <> b -> R_eqb a b = false.
Proof. intro H. destruct (R_eqb_spec a b); congruence. Qed.

Lemma R_div_nonzero (a b : R) : b <> 0 -> R_div a b = Some (a / b).
Proof. intro H. unfold R_div. now rewrite R_eqb_neq. Qed.

Lemma R_div_zero (a : R) : R_div a 0 = None.
Proof. unfold R_div. now rewrite R_eqb_refl. Qed.

Lemma Point_eq_spec (a b : Point R) : reflect (a = b) (Point_eq a b).
Proof.
  destruct a as [ax ay], b as [bx b_y]. unfold Point_eq; cbn.
  destruct (R_eqb_spec ax bx) as [-> | Hx]; cbn.
  - destruct (R_eqb_spec ay b_y) as [-> | Hy]; constructor; congruence.
  - constructor; congruence.
Qed.

Lemma within01_spec (t : R) : reflect (in01 t) (within01 t).
Proof.
  unfold within01, in01; cbn.
  destruct (R_leb_spec 0 t), (R_leb_spec t 1); cbn; constructor; lra.
Qed.

(** *** Proof steps shared by the theorems below *)

(** Unfolds the template down to the operations of the instance. *)
Ltac vt_unfold :=
  cbv beta iota zeta delta
    [findIntersection intersects getIntersection getPointAlongLine
     getPointAlongLine2 getPointAlongLineProportionally getDistanceFromPoint
     findNearestProportionalPositionTo findNearestPointTo isPointAbove
     withShortenedStart withShortenedEnd getLength getDistanceFrom juce_hypot
     jmin jmax jlimit isOrigin withX withY Point_plus Point_minus Point_times
     Point_divide Point_eq Line_eq within01 reversed isVertical isHorizontal
     x y start end_ pt seg
     v0 v1 v2 vadd vsub vmul vdiv veqb vltb vleb hypot to_float real].

Ltac split_points :=
  repeat match goal with
         | l : Line R |- _ => destruct l as [? ?]
         | p : Point R |- _ => destruct p as [? ?]
         end.

(** Decides one comparison of the goal, keeping the fact it decides. *)
Ltac decide_test :=
  match goal with
  | |- context [R_eqb ?a ?b] => destruct (R_eqb_spec a b)
  | |- context [R_ltb ?a ?b] => destruct (R_ltb_spec a b)
  | |- context [R_leb ?a ?b] => destruct (R_leb_spec a b)
  end; cbv beta iota delta [andb orb negb bind ret].

Lemma two_neq_0 : 2 <> 0.
Proof. lra. Qed.

Lemma Point_divide_2 (a : Point R) :
  Point_divide a 2 = Some (mkPoint (x a / 2) (y a / 2)).
Proof.
  unfold Point_divide; cbn [vdiv real].
  now rewrite !(R_div_nonzero _ two_neq_0).
Qed.

(** With a zero cross product no axis-aligned case can apply: a direction
    with one zero component, against a direction whose same component is
    not zero, has its other component zero as well. *)
Lemma axis_resolution_needs_crossing (p1 p2 p3 p4 : Point R) :
  cross p1 p2 p3 p4 = 0 -> ~ axis_resolution p1 p2 p3 p4.
Proof.
  unfold cross, axis_resolution. split_points. cbn [Point_minus x y vsub real].
  intros Hc (Hd1 & Hd2 & [[H1 H2] | [[H1 H2] | [[H1 H2] | [H1 H2]]]]).
  - apply Hd1; split; [| assumption]. rewrite H1 in Hc. nra.
  - apply Hd2; split; [| assumption]. rewrite H1 in Hc. nra.
  - apply Hd1; split; [assumption |]. rewrite H1 in Hc. nra.
  - apply Hd2; split; [assumption |]. rewrite H1 in Hc. nra.
Qed.

(** The parallel branch when no axis-aligned case applies. *)
Lemma findIntersection_fallback (p1 p2 p3 p4 : Point R) :
  p2 <> p3 ->
  cross p1 p2 p3 p4 = 0 ->
  ~ axis_resolution p1 p2 p3 p4 ->
  findIntersection p1 p2 p3 p4 = Some (false, midpoint p2 p3).
Proof.
  intros Hne Hc Hax.
  unfold findIntersection.
  destruct (Point_eq_spec p2 p3) as [He | _]; [contradiction |].
  rewrite Point_divide_2.
  unfold cross, axis_resolution, midpoint in *. split_points.
  vt_unfold. cbv beta iota delta [bind ret].
  cbn [x y] in Hc. rewrite Hc, R_eqb_refl.
  repeat decide_test; try reflexivity; exfalso; apply Hax; cbn; lra.
Qed.

(** The general branch: what the code computes when the lines cross. *)
Lemma findIntersection_crossing (p1 p2 p3 p4 : Point R) :
  p2 <> p3 ->
  cross p1 p2 p3 p4 <> 0 ->
  findIntersection p1 p2 p3 p4 =
  Some (within01 (along1 p1 p2 p3 p4) && within01 (along2 p1 p2 p3 p4),
        Point_plus p1 (Point_times (Point_minus p2 p1) (along1 p1 p2 p3 p4))).
Proof.
  intros Hne Hc.
  unfold findIntersection.
  destruct (Point_eq_spec p2 p3) as [He | _]; [contradiction |].
  unfold along1, along2, cross in *. split_points.
  vt_unfold. cbv beta iota delta [bind ret]. cbn [x y] in Hc.
  rewrite (R_eqb_neq Hc), !(R_div_nonzero _ Hc).
  cbv beta iota delta [bind ret].
  repeat decide_test; try reflexivity; exfalso; lra.
Qed.

(** Cramer's rule does solve the system: the point at [along1] on the first
    line is the point at [along2] on the second. *)
Lemma cramer_meets (p1 p2 p3 p4 : Point R) :
  cross p1 p2 p3 p4 <> 0 ->
  Point_plus p1 (Point_times (Point_minus p2 p1) (along1 p1 p2 p3 p4)) =
  Point_plus p3 (Point_times (Point_minus p4 p3) (along2 p1 p2 p3 p4)).
Proof.
  unfold along1, along2, cross. split_points. vt_unfold. intro Hc.
  f_equal; field; exact Hc.
Qed.

Lemma cross_swap (p1 p2 p3 p4 : Point R) :
  cross p3 p4 p1 p2 = - cross p1 p2 p3 p4.
Proof. unfold cross. ring. Qed.

Lemma along1_swap (p1 p2 p3 p4 : Point R) :
  cross p1 p2 p3 p4 <> 0 ->
  along1 p3 p4 p1 p2 = along2 p1 p2 p3 p4.
Proof. unfold along1, along2, cross. intro Hc. field. split; lra. Qed.

Lemma along2_swap (p1 p2 p3 p4 : Point R) :
  cross p1 p2 p3 p4 <> 0 ->
  along2 p3 p4 p1 p2 = along1 p1 p2 p3 p4.
Proof. unfold along1, along2, cross. intro Hc. field. split; lra. Qed.

(** The first test of [findIntersection]. *)
Lemma findIntersection_touching (p1 p2 p4 : Point R) :
  findIntersection p1 p2 p2 p4 = Some (true, p2).
Proof.
  unfold findIntersection.
  destruct (Point_eq_spec p2 p2) as [_ | Hne]; [reflexivity | now elim Hne].
Qed.

(** Where the second segment starts at the end of the first and the lines
    cross, the crossing is that point: at 1 on the first, at 0 on the
    second. *)
Lemma along1_touching (p1 p2 p4 : Point R) :
  cross p1 p2 p2 p4 <> 0 -> along1 p1 p2 p2 p4 = 1.
Proof. unfold along1, cross. intro Hc. field_simplify_eq; [ring | lra]. Qed.

Lemma along2_touching (p1 p2 p4 : Point R) :
  cross p1 p2 p2 p4 <> 0 -> along2 p1 p2 p2 p4 = 0.
Proof. unfold along2, cross. intro Hc. field_simplify_eq; [ring | lra]. Qed.

Lemma within01_0 : within01 0 = true.
Proof. destruct (within01_spec 0) as [_ | H]; [reflexivity |]. elim H. unfold in01. lra. Qed.

Lemma within01_1 : within01 1 = true.
Proof. destruct (within01_spec 1) as [_ | H]; [reflexivity |]. elim H. unfold in01. lra. Qed.

(** The outcome of the call the other way round, when only the other call
    takes the shared-end-point exit and the lines cross. *)
Lemma outcome_touching_swapped (p1 p2 p4 : Point R) :
  p4 <> p1 ->
  cross p1 p2 p2 p4 <> 0 ->
  outcome (findIntersection p2 p4 p1 p2) = Some true.
Proof.
  intros Hne Hc.
  assert (Hc' : cross p2 p4 p1 p2 <> 0) by (rewrite cross_swap; lra).
  rewrite (findIntersection_crossing Hne Hc'). unfold outcome; cbn [option_map fst].
  rewrite (along1_swap Hc), (along2_swap Hc).
  rewrite (along1_touching Hc), (along2_touching Hc).
  now rewrite within01_0, within01_1.
Qed.

(** ** Segment intersection *)

(** C8: when the first segment ends where the second starts, the call
    answers at its first test: the shared point, and [true], whatever the
    other two end points are. *)
Theorem findIntersection_shared_endpoint (p1 p2 p4 : Point R) :
  findIntersection p1 p2 p2 p4 = Some (true, p2).
Proof. apply findIntersection_touching. Qed.





(** C5: in exact arithmetic a zero cross product already rules every
    axis-aligned case out, so with [p2 <> p3] the parallel branch always
    ends in [false] with the mid-point of [p2] and [p3]. *)
Theorem findIntersection_parallel_always_fallback (p1 p2 p3 p4 : Point R) :
  p2 <> p3 ->
  cross p1 p2 p3 p4 = 0 ->
  ~ axis_resolution p1 p2 p3 p4 /\
  findIntersection p1 p2 p3 p4 = Some (false, midpoint p2 p3).
Proof.
  intros Hne Hc.
  pose proof (axis_resolution_needs_crossing Hc) as Hax.
  split; [exact Hax |].
  apply findIntersection_fallback; assumption.
Qed.

(** Two collinear segments that overlap: ((0,0),(10,0)) and ((5,0),(15,0)). *)
Lemma findIntersection_parallel_always_fallback_witness :
  findIntersection (pt 0 0) (pt 10 0) (pt 5 0) (pt 15 0)
  = Some (false, pt (15 / 2) 0).
Proof.
  assert (Hne : pt 10 0 <> pt 5 0).
  { unfold pt. intro H. injection H as H. lra. }
  assert (Hc : cross (pt 0 0) (pt 10 0) (pt 5 0) (pt 15 0) = 0).
  { unfold cross, pt; cbn [x y]. ring. }
  destruct (findIntersection_parallel_always_fallback Hne Hc) as [_ Hr].
  rewrite Hr.
  unfold midpoint, pt; cbn [x y]. do 2 f_equal. f_equal; field.
Defined.

(** ((0,0),(1,0)) ends where ((1,0),(2,0)) starts, so the call in that order
    answers [true] at its first test; the call in the other order finds two
    parallel directions and answers [false], with the mid-point of (2,0)
    and (0,0). *)
Lemma touching_collinear_both_orders :
  intersects (seg 0 0 1 0) (seg 1 0 2 0) = Some (true, pt 1 0)
  /\ intersects (seg 1 0 2 0) (seg 0 0 1 0) = Some (false, midpoint (pt 2 0) (pt 0 0)).
Proof.
  unfold intersects, seg; cbn [start end_]. split.
  - apply findIntersection_touching.
  - apply findIntersection_fallback.
    + unfold pt. intro H. injection H as H. lra.
    + unfold cross, pt; cbn [x y]. ring.
    + apply axis_resolution_needs_crossing. unfold cross, pt; cbn [x y]. ring.
Qed.

(** The two calls report the same boolean whenever the lines cross
    (non-zero cross product of the directions), and also whenever the
    shared-end-point test answers alike in both orders (the end of [A] is the
    start of [B] exactly when the end of [B] is the start of [A]). *)
Lemma intersect_symmetric_when (A B : Line R) :
  cross (start A) (end_ A) (start B) (end_ B) <> 0
  \/ (end_ A = start B <-> end_ B = start A) ->
  intersect_symmetric A B.
Proof.
  destruct A as [p1 p2], B as [p3 p4].
  unfold intersect_symmetric, intersects; cbn [start end_]. intro H.
  destruct (Point_eq_spec p2 p3) as [E23 | N23], (Point_eq_spec p4 p1) as [E41 | N41].
  - subst p3 p1. now rewrite !findIntersection_touching.
  - subst p3. rewrite findIntersection_touching.
    assert (Hc : cross p1 p2 p2 p4 <> 0) by (destruct H as [Hc | [Hi _]]; [exact Hc | now elim N41; apply Hi]).
    now rewrite (outcome_touching_swapped N41 Hc).
  - subst p4. rewrite (findIntersection_touching p3 p1 p2).
    assert (Hc : cross p3 p1 p1 p2 <> 0).
    { rewrite cross_swap. destruct H as [Hc | [_ Hi]]; [lra | now elim N23; apply Hi]. }
    now rewrite (outcome_touching_swapped N23 Hc).
  - destruct (Req_dec_T (cross p1 p2 p3 p4) 0) as [Hc | Hc].
    + assert (Hc' : cross p3 p4 p1 p2 = 0) by (rewrite cross_swap; lra).
      rewrite (findIntersection_fallback N23 Hc (axis_resolution_needs_crossing Hc)).
      rewrite (findIntersection_fallback N41 Hc' (axis_resolution_needs_crossing Hc')).
      reflexivity.
    + assert (Hc' : cross p3 p4 p1 p2 <> 0) by (rewrite cross_swap; lra).
      rewrite (findIntersection_crossing N23 Hc), (findIntersection_crossing N41 Hc').
      unfold outcome; cbn [option_map fst].
      now rewrite (along1_swap Hc), (along2_swap Hc), andb_comm.
Qed.

(** The condition cannot be weakened: with a zero cross product and exactly
    one of the two shared-end-point tests holding, the two orders always
    disagree. *)
Lemma intersect_asymmetric_when (A B : Line R) :
  cross (start A) (end_ A) (start B) (end_ B) = 0 ->
  ~ (end_ A = start B <-> end_ B = start A) ->
  ~ intersect_symmetric A B.
Proof.
  destruct A as [p1 p2], B as [p3 p4].
  unfold intersect_symmetric, intersects; cbn [start end_]. intros Hc Hn.
  assert (Hc' : cross p3 p4 p1 p2 = 0) by (rewrite cross_swap; lra).
  destruct (Point_eq_spec p2 p3) as [E23 | N23], (Point_eq_spec p4 p1) as [E41 | N41];
    try tauto.
  - subst p3. rewrite findIntersection_touching.
    rewrite (findIntersection_fallback N41 Hc' (axis_resolution_needs_crossing Hc')).
    discriminate.
  - subst p4. rewrite (findIntersection_touching p3 p1 p2).
    rewrite (findIntersection_fallback N23 Hc (axis_resolution_needs_crossing Hc)).
    discriminate.
Qed.

Lemma Point_plus_times_0 (p d : Point R) :
  Point_plus p (Point_times d 0) = p.
Proof. destruct p, d. vt_unfold. f_equal; ring. Qed.

(** The call the other way round, when only the other call takes the
    shared-end-point exit and the lines cross: the crossing is the shared
    point. *)
Lemma findIntersection_touching_swapped (p1 p2 p4 : Point R) :
  p4 <> p1 ->
  cross p1 p2 p2 p4 <> 0 ->
  findIntersection p2 p4 p1 p2 = Some (true, p2).
Proof.
  intros Hne Hc.
  assert (Hc' : cross p2 p4 p1 p2 <> 0) by (rewrite cross_swap; lra).
  rewrite (findIntersection_crossing Hne Hc').
  rewrite (along1_swap Hc), (along2_swap Hc).
  rewrite (along1_touching Hc), (along2_touching Hc).
  now rewrite within01_0, within01_1, Point_plus_times_0.
Qed.

(** A segment and its reverse have parallel directions. *)
Lemma cross_reversed (p1 p2 : Point R) : cross p1 p2 p2 p1 = 0.
Proof. unfold cross. ring. Qed.

(** C3, amended to exact arithmetic: over the reals, when the directions
    have a non-zero cross product the two calls [A.intersects (B)] and
    [B.intersects (A)] return the same boolean and the same point.  When the
    cross product is zero they return the same boolean exactly when the
    shared-end-point test answers alike in both orders (the end of [A] is
    the start of [B] exactly when the end of [B] is the start of [A]), and
    the points they return need not agree: when both tests hold, both calls
    answer [true], each with the end of its own first segment; when neither
    holds, both answer [false], each with its own fallback mid-point. *)
Theorem intersects_in_both_orders (A B : Line R) :
  (cross (start A) (end_ A) (start B) (end_ B) <> 0 ->
   exists (b : bool) (q : Point R),
     intersects A B = Some (b, q) /\ intersects B A = Some (b, q))
  /\ (cross (start A) (end_ A) (start B) (end_ B) = 0 ->
      (intersect_symmetric A B <-> (end_ A = start B <-> end_ B = start A))
      /\ (end_ A = start B -> end_ B = start A ->
          intersects A B = Some (true, end_ A)
          /\ intersects B A = Some (true, end_ B))
      /\ (end_ A <> start B -> end_ B <> start A ->
          intersects A B = Some (false, midpoint (end_ A) (start B))
          /\ intersects B A = Some (false, midpoint (end_ B) (start A)))).
Proof.
  split.
  - destruct A as [p1 p2], B as [p3 p4].
    unfold intersects; cbn [start end_]. intro Hc.
    destruct (Point_eq_spec p2 p3) as [E23 | N23],
             (Point_eq_spec p4 p1) as [E41 | N41].
    + subst p3 p4. elim Hc. apply cross_reversed.
    + subst p3. exists true, p2. split; [apply findIntersection_touching |].
      now apply findIntersection_touching_swapped.
    + subst p4. exists true, p1. split; [| apply findIntersection_touching].
      apply findIntersection_touching_swapped; [exact N23 |].
      rewrite cross_swap. lra.
    + assert (Hc' : cross p3 p4 p1 p2 <> 0) by (rewrite cross_swap; lra).
      rewrite (findIntersection_crossing N23 Hc), (findIntersection_crossing N41 Hc').
      rewrite (along1_swap Hc), (along2_swap Hc), <- (cramer_meets Hc).
      eexists _, _. split; [reflexivity |]. now rewrite andb_comm.
  - intro Hc. split; [| split].
    + split.
      * intro Hsym.
        destruct (Point_eq_spec (end_ A) (start B)) as [E23 | N23],
                 (Point_eq_spec (end_ B) (start A)) as [E41 | N41];
          try tauto; exfalso; revert Hsym;
          apply (intersect_asymmetric_when Hc); tauto.
      * intro Hiff. apply intersect_symmetric_when. now right.
    + destruct A as [p1 p2], B as [p3 p4].
      unfold intersects; cbn [start end_]. intros <- <-.
      split; apply findIntersection_touching.
    + destruct A as [p1 p2], B as [p3 p4].
      unfold intersects; cbn [start end_] in *. intros N23 N41.
      assert (Hc' : cross p3 p4 p1 p2 = 0) by (rewrite cross_swap; lra).
      split; apply findIntersection_fallback; try assumption;
        now apply axis_resolution_needs_crossing.
Qed.

(** Scenario 1 of the spec, in both orders: ((0,0),(10,0)) and
    ((5,-5),(5,5)) cross, and both calls return the same result. *)
Lemma intersects_in_both_orders_witness :
  exists (b : bool) (q : Point R),
    intersects (seg 0 0 10 0) (seg 5 (-5) 5 5) = Some (b, q)
    /\ intersects (seg 5 (-5) 5 5) (seg 0 0 10 0) = Some (b, q).
Proof.
  apply (proj1 (intersects_in_both_orders (seg 0 0 10 0) (seg 5 (-5) 5 5))).
  unfold cross, seg, pt; cbn [start end_ x y]. lra.
Defined.

(** ** Points along a line *)

Lemma getLength_degenerate (p : Point R) : getLength (mkLine p p) = 0.
Proof.
  destruct p as [a b]. vt_unfold.
  replace ((a - a) * (a - a) + (b - b) * (b - b)) with 0 by ring.
  apply sqrt_0.
Qed.

Lemma sum_squares_pos (a b : R) : a <> 0 \/ b <> 0 -> 0 < a * a + b * b.
Proof. intros [H | H]; nra. Qed.

Lemma getLength_pos (l : Line R) : start l <> end_ l -> 0 < getLength l.
Proof.
  destruct l as [[sx sy] [ex ey]]; cbn [start end_]. intro Hne. vt_unfold.
  apply sqrt_lt_R0, sum_squares_pos.
  destruct (Req_dec_T sx ex) as [Hx | Hx]; [| left; lra].
  destruct (Req_dec_T sy ey) as [Hy | Hy]; [| right; lra].
  elim Hne. congruence.
Qed.

(** The one-argument [getPointAlongLine] divides by the length without a
    test: on a zero-length line the quotient does not exist. *)
Lemma getPointAlongLine_degenerate (p : Point R) (d : R) :
  getPointAlongLine (mkLine p p) d = None.
Proof.
  unfold getPointAlongLine. rewrite getLength_degenerate.
  cbn [vdiv real]. now rewrite R_div_zero.
Qed.

(** Off the degenerate case it is the point at proportion [d / length]. *)
Lemma getPointAlongLine_nondegenerate (l : Line R) (d : R) :
  start l <> end_ l ->
  getPointAlongLine l d
  = Some (getPointAlongLineProportionally l (d / getLength l)).
Proof.
  intro Hne. pose proof (@getLength_pos l Hne) as Hpos.
  unfold getPointAlongLine. cbn [vdiv real].
  rewrite R_div_nonzero by lra. reflexivity.
Qed.

(** The two-argument overload tests the length first. *)
Lemma getPointAlongLine2_degenerate (p : Point R) (d e : R) :
  getPointAlongLine2 (mkLine p p) d e = Some p.
Proof.
  pose proof (getLength_degenerate p) as H0. revert H0.
  destruct p as [a b]. vt_unfold. intros ->.
  destruct (R_leb_spec 0 0) as [_ | H]; [reflexivity | elim H; lra].
Qed.

Lemma getPointAlongLineProportionally_0 (l : Line R) :
  getPointAlongLineProportionally l 0 = start l.
Proof. destruct l as [[sx sy] [ex ey]]. vt_unfold. f_equal; ring. Qed.

Lemma getPointAlongLineProportionally_1 (l : Line R) :
  getPointAlongLineProportionally l 1 = end_ l.
Proof. destruct l as [[sx sy] [ex ey]]. vt_unfold. f_equal; ring. Qed.

Lemma jmin_Rmin (a b : R) : jmin a b = Rmin a b.
Proof.
  vt_unfold. unfold Rmin.
  destruct (R_ltb_spec b a), (Rle_dec a b); lra.
Qed.

Lemma withShortenedStart_degenerate (p : Point R) (d : R) :
  withShortenedStart (mkLine p p) d = None.
Proof.
  unfold withShortenedStart. now rewrite getPointAlongLine_degenerate.
Qed.

(** On a line of non-zero length [withShortenedStart] does what the spec
    says: nothing for 0, a collapse onto the end for the length, and in
    general a move of the start to the proportion [min (d, length) / length],
    which is at most 1. *)
Lemma withShortenedStart_nondegenerate (l : Line R) :
  start l <> end_ l ->
  withShortenedStart l 0 = Some l
  /\ withShortenedStart l (getLength l) = Some (mkLine (end_ l) (end_ l))
  /\ forall d : R,
       withShortenedStart l d
       = Some (mkLine (getPointAlongLineProportionally l
                         (Rmin d (getLength l) / getLength l))
                      (end_ l))
       /\ Rmin d (getLength l) / getLength l <= 1.
Proof.
  intro Hne. pose proof (@getLength_pos l Hne) as Hpos.
  assert (Hgen : forall d : R,
             withShortenedStart l d
             = Some (mkLine (getPointAlongLineProportionally l
                               (Rmin d (getLength l) / getLength l))
                            (end_ l))).
  { intro d. unfold withShortenedStart.
    rewrite getPointAlongLine_nondegenerate by exact Hne.
    rewrite jmin_Rmin. reflexivity. }
  split; [| split].
  - rewrite Hgen, Rmin_left by lra.
    replace (0 / getLength l) with 0 by (field; lra).
    rewrite getPointAlongLineProportionally_0. now destruct l.
  - rewrite Hgen, Rmin_right by lra.
    replace (getLength l / getLength l) with 1 by (field; lra).
    now rewrite getPointAlongLineProportionally_1.
  - intro d. split; [apply Hgen |].
    replace 1 with (getLength l / getLength l) by (field; lra).
    unfold Rdiv. apply Rmult_le_compat_r; [| apply Rmin_r].
    left. apply Rinv_0_lt_compat. exact Hpos.
Qed.

(** ** Nearest point and side test *)

(** The sum of squares that the two projection methods call [length]. *)
Lemma squared_length_zero (l : Line R) :
  start l = end_ l ->
  (x (end_ l) - x (start l)) * (x (end_ l) - x (start l))
  + (y (end_ l) - y (start l)) * (y (end_ l) - y (start l)) = 0.
Proof. intros ->. ring. Qed.

Lemma squared_length_pos (l : Line R) :
  start l <> end_ l ->
  0 < (x (end_ l) - x (start l)) * (x (end_ l) - x (start l))
      + (y (end_ l) - y (start l)) * (y (end_ l) - y (start l)).
Proof.
  destruct l as [[sx sy] [ex ey]]; cbn [start end_ x y]. intro Hne.
  apply sum_squares_pos.
  destruct (Req_dec_T sx ex) as [Hx | Hx]; [| left; lra].
  destruct (Req_dec_T sy ey) as [Hy | Hy]; [| right; lra].
  elim Hne. congruence.
Qed.

Lemma jlimit_01 (t : R) : jlimit 0 1 t = Rmax 0 (Rmin 1 t) /\ in01 (jlimit 0 1 t).
Proof.
  vt_unfold. unfold in01, Rmax, Rmin.
  destruct (R_ltb_spec t 0), (R_ltb_spec 1 t), (Rle_dec 1 t);
    try lra; destruct (Rle_dec 0 1); destruct (Rle_dec 0 t); lra.
Qed.



Lemma getDistanceFrom_dist (a b : Point R) : getDistanceFrom a b = dist a b.
Proof. reflexivity. Qed.

(** The last statements of [getDistanceFromPoint]: the nearer of the two
    end points, the end on a tie. *)
Lemma nearer_endpoint (s e p : Point R) :
  exists (d : R) (q : Point R),
    (if R_ltb (dist p s) (dist p e)
     then Some (dist p s, s) else Some (dist p e, e)) = Some (d, q)
    /\ d = dist p q
    /\ (q = s \/ q = e)
    /\ d <= dist p s /\ d <= dist p e.
Proof.
  destruct (R_ltb_spec (dist p s) (dist p e)) as [H | H].
  - exists (dist p s), s. intuition lra.
  - exists (dist p e), e. intuition lra.
Qed.

(** The cases of [getDistanceFromPoint] over the reals, where the narrowing
    of the two end-point distances to [float] changes nothing. *)
Lemma getDistanceFromPoint_cases (l : Line R) (p : Point R) :
  exists (d : R) (q : Point R),
    getDistanceFromPoint l p = Some (d, q)
    /\ d = dist p q
    /\ (start l <> end_ l -> in01 (proj_fraction l p) ->
        q = Point_plus (start l)
              (Point_times (Point_minus (end_ l) (start l)) (proj_fraction l p)))
    /\ (start l = end_ l \/ ~ in01 (proj_fraction l p) ->
        (q = start l \/ q = end_ l)
        /\ d <= dist p (start l) /\ d <= dist p (end_ l)).
Proof.
  unfold getDistanceFromPoint.
  cbn [Point_minus x y v0 v1 vadd vsub vmul vdiv vltb vleb to_float real].
  rewrite (getDistanceFrom_dist p (start l)), (getDistanceFrom_dist p (end_ l)).
  destruct (nearer_endpoint (start l) (end_ l) p)
    as (d & q & Hends & Hd & Hq & Hs & He).
  unfold ret. rewrite Hends.
  destruct (Point_eq_spec (start l) (end_ l)) as [E | N].
  - rewrite (squared_length_zero l E).
    destruct (R_ltb_spec 0 0) as [H | _]; [lra |].
    exists d, q. intuition.
  - pose proof (@squared_length_pos l N) as Hpos.
    match goal with |- context [R_ltb 0 ?a] => destruct (R_ltb_spec 0 a) as [_ | H] end;
      [| contradiction].
    rewrite R_div_nonzero by lra. unfold bind.
    fold (proj_fraction l p).
    destruct (R_leb_spec 0 (proj_fraction l p)) as [H0 | H0];
      [destruct (R_leb_spec (proj_fraction l p) 1) as [H1 | H1] |]; cbn [andb].
    + eexists _, _. split; [reflexivity |]. split; [reflexivity |].
      split; [reflexivity |]. unfold in01. intros [E | Hn]; [now elim N | lra].
    + exists d, q. unfold in01. intuition lra.
    + exists d, q. unfold in01. intuition lra.
Qed.

(** Scenario 4 of the spec over the reals: for the line ((0,0),(10,0)) and
    the target (5,5) the method returns 5 and (5,0). *)
Example getDistanceFromPoint_perpendicular :
  getDistanceFromPoint (seg 0 0 10 0) (pt 5 5) = Some (5, pt 5 0).
Proof.
  destruct (getDistanceFromPoint_cases (seg 0 0 10 0) (pt 5 5))
    as (d & q & Hr & Hd & Hproj & _).
  assert (Ht : proj_fraction (seg 0 0 10 0) (pt 5 5) = 1 / 2).
  { unfold proj_fraction, seg, pt; cbn [start end_ x y]. field. }
  assert (Hq : q = pt 5 0).
  { rewrite Hproj.
    - rewrite Ht. unfold seg, pt. vt_unfold. f_equal; field.
    - unfold seg, pt; cbn [start end_]. intro H. injection H as H. lra.
    - rewrite Ht. unfold in01. lra. }
  rewrite Hr, Hd, Hq. do 2 f_equal.
  unfold dist, pt; cbn [x y].
  replace ((5 - 5) * (5 - 5) + (5 - 0) * (5 - 0)) with (5 * 5) by ring.
  apply sqrt_square. lra.
Qed.

(** Beyond the end of ((0,0),(10,0)): the nearest point to (13,4) is the
    end point, at distance 5. *)
Example getDistanceFromPoint_beyond_end :
  getDistanceFromPoint (seg 0 0 10 0) (pt 13 4) = Some (5, pt 10 0).
Proof.
  pose (l := seg 0 0 10 0). pose (p := pt 13 4).
  destruct (getDistanceFromPoint_cases l p) as (d & q & Hr & Hd & _ & Hends).
  assert (Ht : proj_fraction l p = 13 / 10).
  { unfold proj_fraction, l, p, seg, pt; cbn [start end_ x y]. field. }
  assert (Hs : dist p (start l) = sqrt 185).
  { unfold dist, l, p, seg, pt; cbn [start end_ x y]. f_equal. ring. }
  assert (He : dist p (end_ l) = 5).
  { unfold dist, l, p, seg, pt; cbn [start end_ x y].
    replace ((13 - 10) * (13 - 10) + (4 - 0) * (4 - 0)) with (5 * 5) by ring.
    apply sqrt_square. lra. }
  assert (Hlt : 5 < sqrt 185).
  { rewrite <- (sqrt_square 5) at 1 by lra. apply sqrt_lt_1; lra. }
  destruct Hends as ([Hq | Hq] & Hds & Hde).
  { right. rewrite Ht. unfold in01. lra. }
  - exfalso. rewrite Hd, Hq in Hde. lra.
  - fold l p. rewrite Hr, Hd, Hq, He. reflexivity.
Qed.

End Exact.

(** ** The scenarios of the spec at binary64

    The same template, run as the C++ would run it with
    [ValueType = double]. *)

Module Scenarios.

Import Binary64.

Example scenario_1 :
  findIntersection (pt 0 0) (pt 10 0) (pt 5 (-5)) (pt 5 5)
  = Some (true, pt 5 0).
Proof. vm_compute. reflexivity. Qed.

Example scenario_2 :
  findIntersection (pt 0 0) (pt 10 0) (pt 20 (-5)) (pt 20 5)
  = Some (false, pt 20 0).
Proof. vm_compute. reflexivity. Qed.

Example scenario_3 :
  findIntersection (pt 0 0) (pt 10 0) (pt 0 5) (pt 10 5)
  = Some (false, pt 5 2.5).
Proof. vm_compute. reflexivity. Qed.

Example scenario_4 :
  getDistanceFromPoint (seg 0 0 10 0) (pt 5 5) = Some (5%float, pt 5 0).
Proof. vm_compute. reflexivity. Qed.

Example scenario_5_length : getLength (seg 3 3 3 3) = 0%float.
Proof. vm_compute. reflexivity. Qed.

Example scenario_5_nearest :
  findNearestProportionalPositionTo (seg 3 3 3 3) (pt 7 (-2)) = Some 0%float.
Proof. vm_compute. reflexivity. Qed.

(** The end-to-start order answers at the first test, the other order in
    the parallel branch. *)
Example touching_collinear :
  findIntersection (pt 0 0) (pt 1 0) (pt 1 0) (pt 2 0) = Some (true, pt 1 0)
  /\ findIntersection (pt 1 0) (pt 2 0) (pt 0 0) (pt 1 0) = Some (false, pt 1 0).
Proof. split; vm_compute; reflexivity. Qed.

(** The two end-point distances of [getDistanceFromPoint] pass through a
    C++ [float]: beyond the end of ((0,0),(10,0)), for the target (11, 0.5),
    the distance returned is the binary32 value nearest to the binary64
    distance of the target from the end point. *)
Example endpoint_distance_narrowed :
  getDistanceFromPoint (seg 0 0 10 0) (pt 11 0.5)
  = Some (round_to_float (getDistanceFrom (pt 11 0.5) (pt 10 0)), pt 10 0)
  /\ round_to_float (getDistanceFrom (pt 11 0.5) (pt 10 0))
     <> getDistanceFrom (pt 11 0.5) (pt 10 0).
Proof. split; vm_compute; [reflexivity | discriminate]. Qed.

End Scenarios.

(** ** Zero-length lines *)

(** C2: the spec has [getPointAlongLine (d)] return [start] on a zero-length
    line, with the division guarded.  The code divides by [getLength()]
    unguarded: over the reals the quotient does not exist for any such line
    and any [d]; at binary64, for the line ((3,3),(3,3)) and [d = 5], the
    quotient is an infinity, its product with the zero direction is a NaN,
    and the method returns (NaN, NaN).  The two-argument overload does test
    the length and returns [start]. *)
Theorem getPointAlongLine_zero_length_unguarded :
  (forall (p : Point R) (d : R), getPointAlongLine (mkLine p p) d = None)
  /\ getPointAlongLine (Binary64.seg 3 3 3 3) 5%float
     = Some (Binary64.pt nan nan)
  /\ (forall (p : Point R) (d e : R), getPointAlongLine2 (mkLine p p) d e = Some p)
  /\ getPointAlongLine2 (Binary64.seg 3 3 3 3) 5%float 0%float
     = Some (Binary64.pt 3 3).
Proof.
  split; [exact Exact.getPointAlongLine_degenerate |].
  split; [vm_compute; reflexivity |].
  split; [exact Exact.getPointAlongLine2_degenerate |].
  vm_compute; reflexivity.
Qed.

(** C9: on a zero-length line [withShortenedStart] reaches the same
    unguarded division, for every distance: no result over the reals, and at
    binary64, for ((3,3),(3,3)) and the distance 0, a line that starts at
    (NaN, NaN) and is not equal to the original. *)
Theorem withShortenedStart_zero_length_unguarded :
  (forall (p : Point R) (d : R), withShortenedStart (mkLine p p) d = None)
  /\ withShortenedStart (Binary64.seg 3 3 3 3) 0%float
     = Some (mkLine (Binary64.pt nan nan) (Binary64.pt 3 3))
  /\ Line_eq (mkLine (Binary64.pt nan nan) (Binary64.pt 3 3)) (Binary64.seg 3 3 3 3)
     = false.
Proof.
  split; [exact Exact.withShortenedStart_degenerate |].
  split; vm_compute; reflexivity.
Qed.

(** * The rest of juce_Line.h

    Properties of the methods of [Line] beyond the ones above, over the
    exact instance: how the nearest-point methods, the parametrised points,
    the shortening methods and the intersection test relate to the segment
    as a set of points. *)

Module Segment.

Import Exact.
Local Open Scope R_scope.
Unset Implicit Arguments.

(** [q] is a point of the segment [l]: the point at some proportion in
    [0,1], in the sense of [getPointAlongLineProportionally]. *)
Definition on_segment (l : Line R) (q : Point R) : Prop :=
  exists t : R, in01 t /\ q = getPointAlongLineProportionally l t.

(** The squared length, [delta.x * delta.x + delta.y * delta.y]. *)
Definition sqlen (l : Line R) : R :=
  (x (end_ l) - x (start l)) * (x (end_ l) - x (start l))
  + (y (end_ l) - y (start l)) * (y (end_ l) - y (start l)).

(** The squared distance of two points. *)
Definition sqdist (a b : Point R) : R :=
  (x a - x b) * (x a - x b) + (y a - y b) * (y a - y b).

Lemma dist_sqdist (a b : Point R) : dist a b = sqrt (sqdist a b).
Proof. reflexivity. Qed.

Lemma sqdist_nonneg (a b : Point R) : 0 <= sqdist a b.
Proof.
  unfold sqdist.
  pose proof (Rle_0_sqr (x a - x b)) as Hx.
  pose proof (Rle_0_sqr (y a - y b)) as Hy.
  unfold Rsqr in Hx, Hy. lra.
Qed.

Lemma dist_le (a b c d : Point R) :
  sqdist a b <= sqdist c d -> dist a b <= dist c d.
Proof. intro H. rewrite !dist_sqdist. now apply sqrt_le_1_alt. Qed.

Lemma dist_lt (a b c d : Point R) :
  sqdist a b < sqdist c d -> dist a b < dist c d.
Proof.
  intro H. rewrite !dist_sqdist. apply sqrt_lt_1_alt. split; [apply sqdist_nonneg | exact H].
Qed.

Lemma sqlen_pos (l : Line R) : start l <> end_ l -> 0 < sqlen l.
Proof. apply squared_length_pos. Qed.

(** The numerator of the projection fraction is the fraction times the
    squared length. *)
Lemma proj_fraction_times (l : Line R) (p : Point R) :
  start l <> end_ l ->
  (x p - x (start l)) * (x (end_ l) - x (start l))
  + (y p - y (start l)) * (y (end_ l) - y (start l))
  = proj_fraction l p * sqlen l.
Proof.
  intro N. pose proof (sqlen_pos l N) as Hpos. unfold proj_fraction.
  fold (sqlen l). field. lra.
Qed.

(** The squared distance from [p] to the point at proportion [t], as a
    quadratic in [t] centred at the projection fraction. *)
Lemma sqdist_along (l : Line R) (p : Point R) (t : R) :
  start l <> end_ l ->
  sqdist p (getPointAlongLineProportionally l t)
  = sqdist p (start l)
    + sqlen l * ((t - proj_fraction l p) * (t - proj_fraction l p)
                 - proj_fraction l p * proj_fraction l p).
Proof.
  intro N. pose proof (proj_fraction_times l p N) as Hn. revert Hn.
  generalize (proj_fraction l p). intros f Hn.
  destruct l as [[sx sy] [ex ey]], p as [px py].
  unfold sqdist, sqlen in *. vt_unfold. cbn [start end_ x y] in Hn.
  pose proof (f_equal (Rmult (2 * t)) Hn) as Ht. lra.
Qed.

Lemma along_0 (l : Line R) : getPointAlongLineProportionally l 0 = start l.
Proof. apply getPointAlongLineProportionally_0. Qed.

Lemma along_1 (l : Line R) : getPointAlongLineProportionally l 1 = end_ l.
Proof. apply getPointAlongLineProportionally_1. Qed.

Lemma along_degenerate (p : Point R) (t : R) :
  getPointAlongLineProportionally (mkLine p p) t = p.
Proof. destruct p as [a b]. vt_unfold. f_equal; ring. Qed.

Lemma start_on_segment (l : Line R) : on_segment l (start l).
Proof. exists 0. split; [unfold in01; lra | symmetry; apply along_0]. Qed.

Lemma end_on_segment (l : Line R) : on_segment l (end_ l).
Proof. exists 1. split; [unfold in01; lra | symmetry; apply along_1]. Qed.

(** *** The nearest point of a segment *)

(** The proportion at which the segment is nearest to [p]: the projection
    fraction clamped to [0,1]. *)
Definition clamp01 (t : R) : R := Rmax 0 (Rmin 1 t).

Lemma clamp01_in01 (t : R) : in01 (clamp01 t).
Proof.
  unfold clamp01, in01, Rmax, Rmin.
  destruct (Rle_dec 1 t); destruct (Rle_dec 0 1); destruct (Rle_dec 0 t); lra.
Qed.

Lemma clamp01_cases (t : R) :
  (t < 0 /\ clamp01 t = 0) \/ (in01 t /\ clamp01 t = t) \/ (1 < t /\ clamp01 t = 1).
Proof.
  unfold clamp01, in01, Rmax, Rmin.
  destruct (Rle_dec 1 t); destruct (Rle_dec 0 1); destruct (Rle_dec 0 t); lra.
Qed.

(** What [findNearestProportionalPositionTo] returns on a line of non-zero
    length. *)
Lemma nearest_position_value (l : Line R) (p : Point R) :
  start l <> end_ l ->
  findNearestProportionalPositionTo l p = Some (clamp01 (proj_fraction l p)).
Proof.
  intro N. pose proof (sqlen_pos l N) as Hpos. unfold sqlen in Hpos.
  unfold findNearestProportionalPositionTo, proj_fraction.
  cbn [Point_minus x y v0 v1 vadd vsub vmul vdiv vleb real].
  match goal with |- context [R_leb ?a 0] => destruct (R_leb_spec a 0) as [H | _] end;
    [lra |].
  rewrite R_div_nonzero by lra. unfold bind, ret.
  match goal with |- context [jlimit 0 1 ?q] => destruct (jlimit_01 q) as [Hq _] end.
  now rewrite Hq.
Qed.

Lemma nearest_position_degenerate (a p : Point R) :
  findNearestProportionalPositionTo (mkLine a a) p = Some 0.
Proof.
  unfold findNearestProportionalPositionTo.
  cbn [Point_minus x y start end_ v0 v1 vadd vsub vmul vdiv vleb real].
  replace ((x a - x a) * (x a - x a) + (y a - y a) * (y a - y a)) with 0 by ring.
  destruct (R_leb_spec 0 0) as [_ | H]; [reflexivity | elim H; lra].
Qed.

(** The point of the segment at the clamped projection fraction is at
    least as near to [p] as the point at any proportion in [0,1]. *)
Lemma clamped_projection_nearest (l : Line R) (p : Point R) (t : R) :
  start l <> end_ l ->
  in01 t ->
  sqdist p (getPointAlongLineProportionally l (clamp01 (proj_fraction l p)))
  <= sqdist p (getPointAlongLineProportionally l t).
Proof.
  intros N Ht. pose proof (sqlen_pos l N) as Hpos.
  rewrite !sqdist_along by exact N.
  generalize dependent (sqlen l). intros L HL.
  generalize (proj_fraction l p). intro f.
  unfold in01 in Ht.
  apply Rplus_le_compat_l, Rmult_le_compat_l; [lra |].
  clear N p l.
  destruct (clamp01_cases f) as [[Hf ->] | [[Hf ->] | [Hf ->]]].
  - assert (0 <= t * (- f)) by (apply Rmult_le_pos; lra).
    pose proof (Rle_0_sqr t) as Hsq. unfold Rsqr in Hsq. lra.
  - pose proof (Rle_0_sqr (t - f)) as Hsq. unfold Rsqr in Hsq. lra.
  - assert (0 <= (1 - t) * (2 * f - 1 - t)) by (apply Rmult_le_pos; lra). lra.
Qed.

(** Beyond an end of the segment that end is strictly the nearer one. *)
Lemma start_nearer_before (l : Line R) (p : Point R) :
  start l <> end_ l -> proj_fraction l p < 0 ->
  dist p (start l) < dist p (end_ l).
Proof.
  intros N Hf. pose proof (sqlen_pos l N) as Hpos. apply dist_lt.
  rewrite <- (along_1 l), sqdist_along by exact N.
  generalize dependent (sqlen l). generalize dependent (proj_fraction l p).
  generalize (sqdist p (start l)). intros D f Hf L HL. clear N.
  assert (0 < L * (1 - 2 * f)) by (apply Rmult_lt_0_compat; lra). lra.
Qed.

Lemma end_nearer_beyond (l : Line R) (p : Point R) :
  start l <> end_ l -> 1 < proj_fraction l p ->
  dist p (end_ l) < dist p (start l).
Proof.
  intros N Hf. pose proof (sqlen_pos l N) as Hpos. apply dist_lt.
  rewrite <- (along_1 l), sqdist_along by exact N.
  generalize dependent (sqlen l). generalize dependent (proj_fraction l p).
  generalize (sqdist p (start l)). intros D f Hf L HL. clear N.
  assert (0 < L * (2 * f - 1)) by (apply Rmult_lt_0_compat; lra). lra.
Qed.

(** What [getDistanceFromPoint] returns on a line of non-zero length: the
    point at the clamped projection fraction, and its distance. *)
Lemma distance_point_value (l : Line R) (p : Point R) :
  start l <> end_ l ->
  let q := getPointAlongLineProportionally l (clamp01 (proj_fraction l p)) in
  getDistanceFromPoint l p = Some (dist p q, q).
Proof.
  intros N q.
  destruct (getDistanceFromPoint_cases l p) as (d & q' & Hr & Hd & Hproj & Hends).
  rewrite Hr. subst d. do 2 f_equal; [f_equal |];
  (subst q; destruct (clamp01_cases (proj_fraction l p)) as [[Hf ->] | [[Hf ->] | [Hf ->]]];
   [ rewrite along_0;
     destruct Hends as ([Hq | Hq] & Hs & He); [right; unfold in01; lra | exact Hq |];
     pose proof (start_nearer_before l p N Hf); rewrite Hq in Hs; lra
   | apply Hproj; assumption
   | rewrite along_1;
     destruct Hends as ([Hq | Hq] & Hs & He); [right; unfold in01; lra | | exact Hq];
     pose proof (end_nearer_beyond l p N Hf); rewrite Hq in He; lra ]).
Qed.

Lemma distance_point_degenerate (a p : Point R) :
  getDistanceFromPoint (mkLine a a) p = Some (dist p a, a).
Proof.
  destruct (getDistanceFromPoint_cases (mkLine a a) p) as (d & q & Hr & Hd & _ & Hends).
  cbn [start end_] in Hends.
  destruct Hends as (Hq & _); [left; reflexivity |].
  assert (q = a) by tauto. subst q d. exact Hr.
Qed.

Lemma proj_fraction_along (l : Line R) (t : R) :
  start l <> end_ l ->
  proj_fraction l (getPointAlongLineProportionally l t) = t.
Proof.
  intro N. pose proof (sqlen_pos l N) as Hpos. unfold sqlen in Hpos.
  destruct l as [[sx sy] [ex ey]]. unfold proj_fraction. vt_unfold.
  cbn [start end_ x y] in Hpos. field. lra.
Qed.

Lemma sqdist_zero (a b : Point R) : sqdist a b = 0 -> a = b.
Proof.
  destruct a as [ax ay], b as [bx b_y]. unfold sqdist; cbn [x y]. intro H.
  pose proof (Rle_0_sqr (ax - bx)) as Hx. pose proof (Rle_0_sqr (ay - b_y)) as Hy.
  unfold Rsqr in Hx, Hy.
  assert (Hx0 : (ax - bx) * (ax - bx) = 0) by lra.
  assert (Hy0 : (ay - b_y) * (ay - b_y) = 0) by lra.
  apply Rsqr_0_uniq in Hx0. apply Rsqr_0_uniq in Hy0.
  f_equal; lra.
Qed.

Lemma dist_zero (a b : Point R) : dist a b = 0 -> a = b.
Proof.
  rewrite dist_sqdist. intro H. apply sqdist_zero.
  apply sqrt_eq_0; [apply sqdist_nonneg | exact H].
Qed.

Lemma dist_refl (a : Point R) : dist a a = 0.
Proof.
  rewrite dist_sqdist. unfold sqdist.
  replace ((x a - x a) * (x a - x a) + (y a - y a) * (y a - y a)) with 0 by ring.
  apply sqrt_0.
Qed.

Lemma dist_nonneg (a b : Point R) : 0 <= dist a b.
Proof. rewrite dist_sqdist. apply sqrt_pos. Qed.

(** Both nearest-point methods, on every line: the point they find is a
    point of the segment, and no point of the segment is nearer. *)
Lemma nearest_point (l : Line R) (p : Point R) :
  exists q : Point R,
    getDistanceFromPoint l p = Some (dist p q, q)
    /\ findNearestPointTo l p = Some q
    /\ on_segment l q
    /\ forall r : Point R, on_segment l r -> dist p q <= dist p r.
Proof.
  destruct (Point_eq_spec (start l) (end_ l)) as [E | N].
  - destruct l as [a b]. cbn [start end_] in E. subst b.
    exists a. split; [apply distance_point_degenerate |].
    split; [| split].
    + unfold findNearestPointTo. rewrite nearest_position_degenerate.
      unfold bind, ret. now rewrite along_degenerate.
    + apply (start_on_segment (mkLine a a)).
    + intros r (t & _ & ->). rewrite along_degenerate. lra.
  - exists (getPointAlongLineProportionally l (clamp01 (proj_fraction l p))).
    split; [apply (distance_point_value l p N) |].
    split; [| split].
    + unfold findNearestPointTo. now rewrite nearest_position_value.
    + exists (clamp01 (proj_fraction l p)). split; [apply clamp01_in01 | reflexivity].
    + intros r (t & Ht & ->). apply dist_le. now apply clamped_projection_nearest.
Qed.

(** X1: on a line of non-zero length, the proportional position found for
    the point at proportion [t] is [t] clamped to [0,1]: for a point of the
    segment, [findNearestProportionalPositionTo] inverts
    [getPointAlongLineProportionally]. *)
Theorem findNearestProportionalPositionTo_inverts (l : Line R) (t : R) :
  start l <> end_ l ->
  findNearestProportionalPositionTo l (getPointAlongLineProportionally l t)
  = Some (Rmax 0 (Rmin 1 t))
  /\ (in01 t ->
      findNearestProportionalPositionTo l (getPointAlongLineProportionally l t)
      = Some t).
Proof.
  intro N. rewrite nearest_position_value by exact N.
  rewrite proj_fraction_along by exact N. split; [reflexivity |].
  intro Ht. destruct (clamp01_cases t) as [[Hf _] | [[_ Hc] | [Hf _]]];
    unfold in01 in Ht; try lra. now rewrite Hc.
Qed.

Lemma findNearestProportionalPositionTo_inverts_witness :
  findNearestProportionalPositionTo (seg 0 0 10 0)
    (getPointAlongLineProportionally (seg 0 0 10 0) (1 / 4))
  = Some (1 / 4).
Proof.
  assert (N : start (seg 0 0 10 0) <> end_ (seg 0 0 10 0)).
  { unfold seg, pt; cbn [start end_]. intro H. injection H as H. lra. }
  apply (findNearestProportionalPositionTo_inverts (seg 0 0 10 0) (1 / 4) N).
  unfold in01. lra.
Defined.

(** X2: [findNearestPointTo] always returns a point of the segment, and no
    point of the segment is nearer to the target. *)
Theorem findNearestPointTo_is_nearest (l : Line R) (p : Point R) :
  exists q : Point R,
    findNearestPointTo l p = Some q
    /\ on_segment l q
    /\ forall r : Point R, on_segment l r -> dist p q <= dist p r.
Proof.
  destruct (nearest_point l p) as (q & _ & Hq & Hon & Hmin).
  exists q. auto.
Qed.

(** X4: the distance returned is zero exactly for the points of the
    segment, its two end points among them. *)
Theorem getDistanceFromPoint_zero_iff_on_segment (l : Line R) (p : Point R) :
  (on_segment l p <-> getDistanceFromPoint l p = Some (0, p))
  /\ getDistanceFromPoint l (start l) = Some (0, start l)
  /\ getDistanceFromPoint l (end_ l) = Some (0, end_ l).
Proof.
  assert (Hiff : forall a : Point R,
             on_segment l a <-> getDistanceFromPoint l a = Some (0, a)).
  { intro a. destruct (nearest_point l a) as (q & Hd & _ & Hon & Hmin). split.
    - intro Ha. pose proof (Hmin a Ha) as Hle. rewrite dist_refl in Hle.
      pose proof (dist_nonneg a q) as Hge.
      assert (H0 : dist a q = 0) by lra.
      rewrite Hd, H0. now rewrite (dist_zero a q H0).
    - intro H. rewrite Hd in H. injection H as _ Hq. now subst q. }
  split; [apply Hiff |]. split; apply Hiff.
  - apply start_on_segment.
  - apply end_on_segment.
Qed.

(** *** What [intersects] reports *)

(** With a non-zero cross product the system
    [p1 + d1 * t = p3 + d2 * u] has the Cramer's-rule positions as its only
    solution. *)
Lemma cramer_unique (p1 p2 p3 p4 : Point R) (t u : R) :
  cross p1 p2 p3 p4 <> 0 ->
  Point_plus p1 (Point_times (Point_minus p2 p1) t)
  = Point_plus p3 (Point_times (Point_minus p4 p3) u) ->
  t = along1 p1 p2 p3 p4 /\ u = along2 p1 p2 p3 p4.
Proof.
  destruct p1 as [x1 y1], p2 as [x2 y2], p3 as [x3 y3], p4 as [x4 y4].
  unfold along1, along2, cross. vt_unfold. intros Hc H. injection H as Ex Ey.
  pose proof (f_equal (fun z => z * (y4 - y3)) Ex) as Exa.
  pose proof (f_equal (fun z => z * (x4 - x3)) Ey) as Eya.
  pose proof (f_equal (fun z => z * (y2 - y1)) Ex) as Exb.
  pose proof (f_equal (fun z => z * (x2 - x1)) Ey) as Eyb.
  cbv beta in Exa, Eya, Exb, Eyb.
  split.
  - apply Rmult_eq_reg_r with ((x2 - x1) * (y4 - y3) - (x4 - x3) * (y2 - y1));
      [| exact Hc].
    unfold Rdiv. rewrite Rmult_assoc, Rinv_l, Rmult_1_r by exact Hc. lra.
  - apply Rmult_eq_reg_r with ((x2 - x1) * (y4 - y3) - (x4 - x3) * (y2 - y1));
      [| exact Hc].
    unfold Rdiv. rewrite Rmult_assoc, Rinv_l, Rmult_1_r by exact Hc. lra.
Qed.

(** X5: [intersects] reports [true] only with a point that lies on both
    segments. *)
Theorem intersects_true_is_sound (A B : Line R) (q : Point R) :
  intersects A B = Some (true, q) ->
  on_segment A q /\ on_segment B q.
Proof.
  destruct A as [p1 p2], B as [p3 p4]. unfold intersects; cbn [start end_].
  destruct (Point_eq_spec p2 p3) as [E | N].
  - subst p3. rewrite findIntersection_touching. intro H. injection H as <-.
    split; [apply (end_on_segment (mkLine p1 p2)) | apply (start_on_segment (mkLine p2 p4))].
  - destruct (Req_dec_T (cross p1 p2 p3 p4) 0) as [Hc | Hc].
    + rewrite (findIntersection_fallback N Hc (axis_resolution_needs_crossing Hc)).
      discriminate.
    + rewrite (findIntersection_crossing N Hc). intro H. injection H as Hb <-.
      apply andb_true_iff in Hb. destruct Hb as [H1 H2].
      destruct (within01_spec (along1 p1 p2 p3 p4)) as [I1 | ]; [| discriminate].
      destruct (within01_spec (along2 p1 p2 p3 p4)) as [I2 | ]; [| discriminate].
      split.
      * exists (along1 p1 p2 p3 p4). split; [exact I1 | reflexivity].
      * exists (along2 p1 p2 p3 p4). split; [exact I2 |]. apply (cramer_meets Hc).
Qed.

Lemma intersects_true_is_sound_witness :
  on_segment (seg 0 0 10 0) (pt 5 0) /\ on_segment (seg 5 (-5) 5 5) (pt 5 0).
Proof.
  apply intersects_true_is_sound.
  assert (Hne : pt 10 0 <> pt 5 (-5)).
  { unfold pt. intro H. injection H as H _. lra. }
  assert (Hc : cross (pt 0 0) (pt 10 0) (pt 5 (-5)) (pt 5 5) <> 0).
  { unfold cross, pt; cbn [x y]. lra. }
  unfold intersects, seg; cbn [start end_].
  rewrite (findIntersection_crossing Hne Hc).
  assert (Ha1 : along1 (pt 0 0) (pt 10 0) (pt 5 (-5)) (pt 5 5) = 1 / 2).
  { unfold along1, cross, pt; cbn [x y]. field. }
  assert (Ha2 : along2 (pt 0 0) (pt 10 0) (pt 5 (-5)) (pt 5 5) = 1 / 2).
  { unfold along2, cross, pt; cbn [x y]. field. }
  rewrite Ha1, Ha2.
  destruct (within01_spec (1 / 2)) as [_ | H]; [| elim H; unfold in01; lra].
  cbn [andb]. unfold pt. vt_unfold. do 2 f_equal. f_equal; field.
Defined.

(** X6: when the two lines cross (non-zero cross product of the
    directions), [intersects] reports [true] for every pair of segments that
    share a point, and returns that point. *)
Theorem intersects_crossing_is_complete (A B : Line R) (q : Point R) :
  cross (start A) (end_ A) (start B) (end_ B) <> 0 ->
  on_segment A q -> on_segment B q ->
  intersects A B = Some (true, q).
Proof.
  destruct A as [p1 p2], B as [p3 p4]. unfold intersects; cbn [start end_].
  intros Hc (t & Ht & Hqt) (u & Hu & Hqu).
  assert (Heq : Point_plus p1 (Point_times (Point_minus p2 p1) t)
                = Point_plus p3 (Point_times (Point_minus p4 p3) u)).
  { unfold getPointAlongLineProportionally in Hqt, Hqu; cbn [start end_] in Hqt, Hqu.
    congruence. }
  destruct (cramer_unique p1 p2 p3 p4 t u Hc Heq) as [Et Eu].
  destruct (Point_eq_spec p2 p3) as [E | N].
  - subst p3. rewrite findIntersection_touching.
    rewrite (along1_touching Hc) in Et. subst t.
    rewrite Hqt, (along_1 (mkLine p1 p2)). reflexivity.
  - rewrite (findIntersection_crossing N Hc).
    rewrite <- Et, <- Eu.
    destruct (within01_spec t) as [_ | H]; [| contradiction].
    destruct (within01_spec u) as [_ | H]; [| contradiction].
    cbn [andb]. rewrite Hqt. reflexivity.
Qed.

Lemma intersects_crossing_is_complete_witness :
  intersects (seg 0 0 10 0) (seg 5 (-5) 5 5) = Some (true, pt 5 0).
Proof.
  apply intersects_crossing_is_complete.
  - unfold cross, seg, pt; cbn [start end_ x y]. lra.
  - exists (1 / 2). split; [unfold in01; lra |].
    unfold seg, pt. vt_unfold. f_equal; field.
  - exists (1 / 2). split; [unfold in01; lra |].
    unfold seg, pt. vt_unfold. f_equal; field.
Defined.

(** X7: a line intersects itself, by this test, exactly when it has zero
    length: on a line of non-zero length the two directions are parallel and
    the end is not the start, so the answer is [false], with the mid-point
    of the line as the point. *)
Theorem intersects_itself_iff_zero_length (l : Line R) :
  exists (b : bool) (q : Point R),
    intersects l l = Some (b, q)
    /\ (b = true <-> start l = end_ l)
    /\ (start l <> end_ l -> q = midpoint (end_ l) (start l)).
Proof.
  destruct l as [p1 p2]. unfold intersects; cbn [start end_].
  destruct (Point_eq_spec p2 p1) as [E | N].
  - subst p2. rewrite findIntersection_touching.
    exists true, p1. intuition.
  - assert (Hc : cross p1 p2 p1 p2 = 0) by (unfold cross; ring).
    rewrite (findIntersection_fallback N Hc (axis_resolution_needs_crossing Hc)).
    exists false, (midpoint p2 p1). intuition (try discriminate; try congruence).
Qed.

(** *** Distances along the line *)

Lemma getLength_sqlen (l : Line R) : getLength l = sqrt (sqlen l).
Proof.
  destruct l as [[sx sy] [ex ey]]. unfold sqlen. vt_unfold. f_equal. ring.
Qed.

Lemma sqlen_nonneg (l : Line R) : 0 <= sqlen l.
Proof.
  unfold sqlen.
  pose proof (Rle_0_sqr (x (end_ l) - x (start l))) as Hx.
  pose proof (Rle_0_sqr (y (end_ l) - y (start l))) as Hy.
  unfold Rsqr in Hx, Hy. lra.
Qed.

Lemma sqdist_along_along (l : Line R) (t u : R) :
  sqdist (getPointAlongLineProportionally l t) (getPointAlongLineProportionally l u)
  = Rsqr (t - u) * sqlen l.
Proof.
  destruct l as [[sx sy] [ex ey]]. unfold sqdist, sqlen, Rsqr. vt_unfold. ring.
Qed.

(** Two points of the line are as far apart as their proportions, in
    lengths of the line. *)
Lemma dist_along_along (l : Line R) (t u : R) :
  dist (getPointAlongLineProportionally l t) (getPointAlongLineProportionally l u)
  = Rabs (t - u) * getLength l.
Proof.
  rewrite dist_sqdist, sqdist_along_along, getLength_sqlen.
  rewrite sqrt_mult; [| apply Rle_0_sqr | apply sqlen_nonneg].
  now rewrite sqrt_Rsqr_abs.
Qed.

(** X8: on a line of non-zero length [getPointAlongLine (d)] returns a
    point at distance [|d|] from the start, on the segment when [d] lies
    between 0 and the length. *)
Theorem getPointAlongLine_at_distance (l : Line R) (d : R) :
  start l <> end_ l ->
  exists q : Point R,
    getPointAlongLine l d = Some q
    /\ dist (start l) q = Rabs d
    /\ (0 <= d <= getLength l -> on_segment l q).
Proof.
  intro N. pose proof (@getLength_pos l N) as Hpos.
  exists (getPointAlongLineProportionally l (d / getLength l)).
  split; [apply getPointAlongLine_nondegenerate; exact N |]. split.
  - rewrite <- (along_0 l) at 1. rewrite dist_along_along.
    replace (0 - d / getLength l) with (- (d / getLength l)) by ring.
    rewrite Rabs_Ropp. unfold Rdiv. rewrite Rabs_mult, Rabs_inv.
    rewrite (Rabs_pos_eq (getLength l)) by lra. field. lra.
  - intros [H0 H1]. exists (d / getLength l). split; [| reflexivity].
    unfold in01. split.
    + apply Rmult_le_pos; [exact H0 |]. left. now apply Rinv_0_lt_compat.
    + apply Rmult_le_reg_r with (getLength l); [exact Hpos |].
      unfold Rdiv. rewrite Rmult_assoc, Rinv_l by lra. lra.
Qed.

Lemma getPointAlongLine_at_distance_witness :
  exists q : Point R,
    getPointAlongLine (seg 0 0 3 4) 2 = Some q
    /\ dist (start (seg 0 0 3 4)) q = Rabs 2
    /\ (0 <= 2 <= getLength (seg 0 0 3 4) -> on_segment (seg 0 0 3 4) q).
Proof.
  apply getPointAlongLine_at_distance.
  unfold seg, pt; cbn [start end_]. intro H. injection H as H _. lra.
Defined.

(** The two-argument overload computes the same length as [getLength],
    from the direction instead of from its opposite. *)
Lemma hypot_delta (l : Line R) :
  sqrt ((x (end_ l) - x (start l)) * (x (end_ l) - x (start l))
        + (y (end_ l) - y (start l)) * (y (end_ l) - y (start l)))
  = getLength l.
Proof. symmetry. apply getLength_sqlen. Qed.

(** What the two-argument overload returns on a line of non-zero length. *)
Lemma getPointAlongLine2_value (l : Line R) (d perp : R) :
  start l <> end_ l ->
  getPointAlongLine2 l d perp
  = Some (mkPoint
            (x (start l)
             + ((x (end_ l) - x (start l)) * d - (y (end_ l) - y (start l)) * perp)
               / getLength l)
            (y (start l)
             + ((y (end_ l) - y (start l)) * d + (x (end_ l) - x (start l)) * perp)
               / getLength l)).
Proof.
  intro N. pose proof (@getLength_pos l N) as Hpos.
  unfold getPointAlongLine2, juce_hypot.
  cbn [Point_minus x y v0 vadd vsub vmul vdiv vleb hypot real].
  rewrite hypot_delta.
  destruct (R_leb_spec (getLength l) 0) as [H | _]; [lra |].
  rewrite !R_div_nonzero by lra. reflexivity.
Qed.

(** X9: on a line of non-zero length the two-argument
    [getPointAlongLine (d, perp)] returns the point that lies [|perp|] away
    from the point [getPointAlongLine (d)], in the direction perpendicular
    to the line, on the side given by the sign of [perp]; with [perp = 0]
    the two overloads agree. *)
Theorem getPointAlongLine2_offsets_perpendicularly (l : Line R) (d perp : R) :
  start l <> end_ l ->
  exists a q : Point R,
    getPointAlongLine l d = Some a
    /\ getPointAlongLine2 l d perp = Some q
    /\ dist a q = Rabs perp
    /\ (x q - x a) * (x (end_ l) - x (start l))
       + (y q - y a) * (y (end_ l) - y (start l)) = 0
    /\ (x (end_ l) - x (start l)) * (y q - y a)
       - (y (end_ l) - y (start l)) * (x q - x a) = perp * getLength l
    /\ (perp = 0 -> q = a).
Proof.
  intro N. pose proof (@getLength_pos l N) as Hpos.
  pose proof (getLength_sqlen l) as Hlen.
  assert (Hsq : getLength l * getLength l = sqlen l).
  { rewrite Hlen. apply sqrt_sqrt, sqlen_nonneg. }
  eexists _, _.
  split; [apply getPointAlongLine_nondegenerate; exact N |].
  split; [apply getPointAlongLine2_value; exact N |].
  revert Hpos Hsq. generalize (getLength l). intros len Hpos Hsq.
  destruct l as [[sx sy] [ex ey]]. unfold sqlen in Hsq.
  cbn [start end_ x y] in *. vt_unfold.
  assert (Hd : forall u v : R, u = v -> sqrt u = sqrt v) by (intros; now subst).
  split; [| split; [| split]].
  - unfold dist; cbn [x y]. rewrite <- sqrt_Rsqr_abs. apply Hd.
    unfold Rsqr. field_simplify_eq; [| lra].
    replace (len ^ 2) with (len * len) by ring. rewrite Hsq. ring.
  - field. lra.
  - field_simplify_eq; [| lra].
    replace (len ^ 2) with (len * len) by ring. rewrite Hsq. ring.
  - intros ->. f_equal; field; lra.
Qed.

Lemma getPointAlongLine2_offsets_perpendicularly_witness :
  exists a q : Point R,
    getPointAlongLine (seg 0 0 3 4) 5 = Some a
    /\ getPointAlongLine2 (seg 0 0 3 4) 5 2 = Some q
    /\ dist a q = Rabs 2
    /\ (x q - x a) * (3 - 0) + (y q - y a) * (4 - 0) = 0
    /\ (3 - 0) * (y q - y a) - (4 - 0) * (x q - x a) = 2 * getLength (seg 0 0 3 4)
    /\ (2 = 0 -> q = a).
Proof.
  apply (getPointAlongLine2_offsets_perpendicularly (seg 0 0 3 4) 5 2).
  unfold seg, pt; cbn [start end_]. intro H. injection H as H _. lra.
Defined.

(** *** Shortened lines *)

Lemma Rmin_le_length (d len : R) : 0 <= len - Rmin d len.
Proof. pose proof (Rmin_r d len). lra. Qed.

(** X10: on a line of non-zero length [withShortenedStart (d)] keeps the
    end, puts the start on the line, and leaves the length
    [length - min (d, length)]: the length less [d] for [d] up to the
    length, and zero beyond it. *)
Theorem withShortenedStart_length (l : Line R) (d : R) :
  start l <> end_ l ->
  exists l' : Line R,
    withShortenedStart l d = Some l'
    /\ end_ l' = end_ l
    /\ getLength l' = getLength l - Rmin d (getLength l)
    /\ (getLength l <= d -> getLength l' = 0)
    /\ (0 <= d -> on_segment l (start l')).
Proof.
  intro N. pose proof (@getLength_pos l N) as Hpos.
  destruct (@withShortenedStart_nondegenerate l N) as (_ & _ & Hgen).
  destruct (Hgen d) as [Hr Hle1].
  eexists. split; [exact Hr |]. cbn [start end_].
  assert (Hlen : getLength
                   (mkLine (getPointAlongLineProportionally l
                              (Rmin d (getLength l) / getLength l)) (end_ l))
                 = getLength l - Rmin d (getLength l)).
  { change (dist (getPointAlongLineProportionally l
                    (Rmin d (getLength l) / getLength l)) (end_ l)
            = getLength l - Rmin d (getLength l)).
    rewrite <- (along_1 l) at 1. rewrite dist_along_along.
    rewrite Rabs_minus_sym, Rabs_pos_eq by lra. field. lra. }
  split; [reflexivity |]. split; [exact Hlen |]. split.
  - intro Hd. rewrite Hlen, Rmin_right by exact Hd. ring.
  - intro Hd. exists (Rmin d (getLength l) / getLength l).
    split; [| reflexivity]. unfold in01. split; [| exact Hle1].
    apply Rmult_le_pos; [| left; now apply Rinv_0_lt_compat].
    apply Rmin_glb; lra.
Qed.

Lemma withShortenedStart_length_witness :
  exists l' : Line R,
    withShortenedStart (seg 0 0 3 4) 2 = Some l'
    /\ end_ l' = pt 3 4
    /\ getLength l' = getLength (seg 0 0 3 4) - Rmin 2 (getLength (seg 0 0 3 4))
    /\ (getLength (seg 0 0 3 4) <= 2 -> getLength l' = 0)
    /\ (0 <= 2 -> on_segment (seg 0 0 3 4) (start l')).
Proof.
  apply (withShortenedStart_length (seg 0 0 3 4) 2).
  unfold seg, pt; cbn [start end_]. intro H. injection H as H _. lra.
Defined.

(** X11: on a line of non-zero length [withShortenedEnd (d)] keeps the
    start, puts the end on the line, and leaves the length
    [length - min (d, length)]. *)
Theorem withShortenedEnd_length (l : Line R) (d : R) :
  start l <> end_ l ->
  exists l' : Line R,
    withShortenedEnd l d = Some l'
    /\ start l' = start l
    /\ getLength l' = getLength l - Rmin d (getLength l)
    /\ (getLength l <= d -> l' = mkLine (start l) (start l))
    /\ (0 <= d -> on_segment l (end_ l')).
Proof.
  intro N. pose proof (@getLength_pos l N) as Hpos.
  pose proof (Rmin_le_length d (getLength l)) as Hm.
  unfold withShortenedEnd. rewrite getPointAlongLine_nondegenerate by exact N.
  rewrite jmin_Rmin. unfold bind, ret. cbn [vsub real].
  eexists. split; [reflexivity |]. cbn [start end_].
  split; [reflexivity |]. split; [| split].
  - change (dist (start l)
              (getPointAlongLineProportionally l
                 ((getLength l - Rmin d (getLength l)) / getLength l))
            = getLength l - Rmin d (getLength l)).
    rewrite <- (along_0 l) at 1. rewrite dist_along_along.
    replace (0 - (getLength l - Rmin d (getLength l)) / getLength l)
      with (- ((getLength l - Rmin d (getLength l)) / getLength l)) by ring.
    rewrite Rabs_Ropp, Rabs_pos_eq.
    + field. lra.
    + apply Rmult_le_pos; [exact Hm | left; now apply Rinv_0_lt_compat].
  - intro Hd. rewrite Rmin_right by exact Hd.
    replace ((getLength l - getLength l) / getLength l) with 0 by (field; lra).
    now rewrite along_0.
  - intro Hd. exists ((getLength l - Rmin d (getLength l)) / getLength l).
    split; [| reflexivity]. unfold in01. split.
    + apply Rmult_le_pos; [exact Hm | left; now apply Rinv_0_lt_compat].
    + apply Rmult_le_reg_r with (getLength l); [exact Hpos |].
      unfold Rdiv. rewrite Rmult_assoc, Rinv_l by lra.
      assert (0 <= Rmin d (getLength l)) by (apply Rmin_glb; lra). lra.
Qed.

Lemma withShortenedEnd_length_witness :
  exists l' : Line R,
    withShortenedEnd (seg 0 0 3 4) 2 = Some l'
    /\ start l' = pt 0 0
    /\ getLength l' = getLength (seg 0 0 3 4) - Rmin 2 (getLength (seg 0 0 3 4))
    /\ (getLength (seg 0 0 3 4) <= 2 -> l' = mkLine (pt 0 0) (pt 0 0))
    /\ (0 <= 2 -> on_segment (seg 0 0 3 4) (end_ l')).
Proof.
  apply (withShortenedEnd_length (seg 0 0 3 4) 2).
  unfold seg, pt; cbn [start end_]. intro H. injection H as H _. lra.
Defined.

(** *** Length and side *)

(** X12: the length of a line is that of the reversed line, is never
    negative, and is zero exactly when the two end points coincide. *)
Theorem getLength_facts (l : Line R) :
  getLength (reversed l) = getLength l
  /\ 0 <= getLength l
  /\ (getLength l = 0 <-> start l = end_ l).
Proof.
  split; [| split].
  - destruct l as [[sx sy] [ex ey]]. vt_unfold. f_equal. ring.
  - rewrite getLength_sqlen. apply sqrt_pos.
  - split.
    + intro H. apply (dist_zero (start l) (end_ l)). exact H.
    + intro E. destruct l as [a b]. cbn [start end_] in E. subst b.
      apply getLength_degenerate.
Qed.

(** X13: [isPointAbove] does not depend on the direction of the line: the
    reversed line gives the same answer for every point. *)
Theorem isPointAbove_reversed (l : Line R) (p : Point R) :
  isPointAbove (reversed l) p = isPointAbove l p.
Proof.
  destruct l as [[sx sy] [ex ey]], p as [px py].
  unfold isPointAbove, reversed.
  cbn [start end_ x y vadd vsub vmul vdiv veqb vltb real].
  destruct (R_eqb_spec ex sx) as [E | N], (R_eqb_spec sx ex) as [E' | N'];
    cbn [negb]; try reflexivity; try (exfalso; lra).
  rewrite !R_div_nonzero by lra. unfold bind, ret. do 2 f_equal.
  field. lra.
Qed.

End Segment.

(** [withShortenedEnd] on a zero-length line reaches the unguarded division
    of the one-argument [getPointAlongLine] as [withShortenedStart] does. *)
Lemma withShortenedEnd_degenerate (p : Point R) (d : R) :
  withShortenedEnd (mkLine p p) d = None.
Proof.
  unfold withShortenedEnd. now rewrite Exact.getPointAlongLine_degenerate.
Qed.

(** X14: on a zero-length line [withShortenedEnd] divides by the zero
    length, for every distance: no result over the reals, and at binary64,
    for ((3,3),(3,3)) and the distance 0, a line that ends at (NaN, NaN). *)
Theorem withShortenedEnd_zero_length_unguarded :
  (forall (p : Point R) (d : R), withShortenedEnd (mkLine p p) d = None)
  /\ withShortenedEnd (Binary64.seg 3 3 3 3) 0%float
     = Some (mkLine (Binary64.pt 3 3) (Binary64.pt nan nan)).
Proof.
  split; [exact withShortenedEnd_degenerate |].
  vm_compute; reflexivity.
Qed.

(** * Binary64 against the reals

    The theorems of module [Exact] hold of the template over the reals.  The
    C++ runs it at [double], where products overflow and underflow,
    quotients round, a NaN fails every comparison, and
    [getDistanceFromPoint] narrows two distances to [float].  The lemmas
    below run the methods at binary64 on finite inputs on which the result
    departs from the result over the reals.  Every coordinate is a binary64
    value, written so that it denotes the same number as a real. *)

Module Rounded.

Import Binary64.

(** The [divisor] of [findIntersection], as the code computes it. *)
Definition divisor (p1 p2 p3 p4 : Point float) : float :=
  let d1 := Point_minus p2 p1 in
  let d2 := Point_minus p4 p3 in
  (x d1 * y d2 - x d2 * y d1)%vt.

(** The [along1] of the general branch of [findIntersection], as the code
    computes it. *)
Definition computed_along1 (p1 p2 p3 p4 : Point float) : option float :=
  let d2 := Point_minus p4 p3 in
  (((y p1 - y p3) * x d2 - (x p1 - x p3) * y d2) / divisor p1 p2 p3 p4)%vt.

(** Two to the 600: its square is beyond the binary64 range. *)
Definition huge : float := 0x1p600%float.

(** Two to the -600: its square is below the binary64 range. *)
Definition tiny : float := 0x1p-600%float.

(** The largest power of two of binary64. *)
Definition top : float := 0x1p1023%float.

(** The binary64 value nearest to one third, which lies below it. *)
Definition third : float := 0x1.5555555555555p-2%float.

(** The values the literals denote, as mantissa and exponent. *)
Example literal_values :
  Prim2SF huge = S754_finite false 4503599627370496 548
  /\ Prim2SF tiny = S754_finite false 4503599627370496 (-652)
  /\ Prim2SF top = S754_finite false 4503599627370496 971
  /\ Prim2SF third = S754_finite false 6004799503160661 (-54).
Proof. repeat split; vm_compute; reflexivity. Qed.

(** Over the reals, the horizontal segment from the origin to (a,0) and
    the vertical one from (-a,0) to (-a,a): the lines meet at (-a,0), at
    position -1 on the first. *)
Lemma exact_general_case_far (a : R) :
  (a <> 0)%R ->
  findIntersection (Exact.pt 0 0) (Exact.pt a 0) (Exact.pt (- a) 0) (Exact.pt (- a) a)
  = Some (false, Exact.pt (- a) 0).
Proof.
  intro Ha.
  assert (Hc : Exact.cross (Exact.pt 0 0) (Exact.pt a 0) (Exact.pt (- a) 0) (Exact.pt (- a) a)
               = (a * a)%R).
  { unfold Exact.cross, Exact.pt; cbn [x y]. ring. }
  assert (Hsq : (a * a <> 0)%R) by (apply Rmult_integral_contrapositive; tauto).
  rewrite Exact.findIntersection_crossing.
  - assert (H1 : Exact.along1 (Exact.pt 0 0) (Exact.pt a 0) (Exact.pt (- a) 0) (Exact.pt (- a) a)
                 = (-1)%R).
    { unfold Exact.along1. rewrite Hc. unfold Exact.pt; cbn [x y]. field. exact Ha. }
    rewrite H1.
    destruct (Exact.within01_spec (-1)) as [[H _] | _]; [lra |].
    cbn [andb]. do 2 f_equal. unfold Exact.pt. Exact.vt_unfold. f_equal; ring.
  - unfold Exact.pt. intro H. injection H as H. lra.
  - rewrite Hc. exact Hsq.
Qed.

Lemma pow2_nonzero (n : nat) : (2 ^ n <> 0)%R.
Proof. apply pow_nonzero. lra. Qed.

(** Over the reals, two crossing segments that end at the same point meet
    there, at position 1 on both. *)
Lemma exact_general_case_shared_end (p1 p2 p3 : Point R) :
  p2 <> p3 ->
  (Exact.cross p1 p2 p3 p2 <> 0)%R ->
  findIntersection p1 p2 p3 p2 = Some (true, p2).
Proof.
  intros N Hc. rewrite (Exact.findIntersection_crossing N Hc).
  assert (H1 : Exact.along1 p1 p2 p3 p2 = 1%R).
  { unfold Exact.along1, Exact.cross in *. field_simplify_eq; [ring | exact Hc]. }
  assert (H2 : Exact.along2 p1 p2 p3 p2 = 1%R).
  { unfold Exact.along2, Exact.cross in *. field_simplify_eq; [ring | exact Hc]. }
  rewrite H1, H2, Exact.within01_1. cbn [andb]. do 2 f_equal.
  destruct p1, p2. Exact.vt_unfold. f_equal; ring.
Qed.


(** Over the reals, two parallel horizontal segments, in opposite
    directions. *)
Lemma exact_parallel_horizontal (a : R) :
  (a <> 0)%R ->
  findIntersection (Exact.pt 0 0) (Exact.pt a 0) (Exact.pt a 5) (Exact.pt 0 5)
  = Some (false, Exact.pt a (5 / 2)).
Proof.
  intro Ha.
  assert (Hc : Exact.cross (Exact.pt 0 0) (Exact.pt a 0) (Exact.pt a 5) (Exact.pt 0 5) = 0%R).
  { unfold Exact.cross, Exact.pt; cbn [x y]. ring. }
  rewrite Exact.findIntersection_fallback.
  - unfold Exact.midpoint, Exact.pt; cbn [x y]. do 2 f_equal. f_equal; field.
  - unfold Exact.pt. intro H. injection H as H. lra.
  - exact Hc.
  - apply Exact.axis_resolution_needs_crossing, Hc.
Qed.


(** Over the reals, the end point of a segment is at position 1. *)
Lemma exact_position_of_end (a : R) :
  (a <> 0)%R ->
  findNearestProportionalPositionTo (Exact.seg 0 0 a 0) (Exact.pt a 0) = Some 1%R.
Proof.
  intro Ha.
  assert (N : start (Exact.seg 0 0 a 0) <> end_ (Exact.seg 0 0 a 0)).
  { unfold Exact.seg, Exact.pt; cbn [start end_]. intro H. injection H as H. lra. }
  rewrite (Segment.nearest_position_value _ _ N).
  assert (Ht : Exact.proj_fraction (Exact.seg 0 0 a 0) (Exact.pt a 0) = 1%R).
  { unfold Exact.proj_fraction, Exact.seg, Exact.pt; cbn [start end_ x y]. field. exact Ha. }
  rewrite Ht. f_equal.
  destruct (Segment.clamp01_cases 1) as [[H _] | [[_ H] | [H _]]]; [lra | exact H | lra].
Qed.



(** C3, as the spec states it, fails.  ((0,0),(1,0)) ends where
    ((1,0),(2,0)) starts: the call in that order answers [true] at its
    first test, the call in the other order finds parallel directions and
    answers [false]; over the reals and at binary64 alike.  ((0,0),(1,0))
    and its reverse share both end points: both calls answer [true] at the
    first test, neither in the parallel fallback, and their points (1,0)
    and (0,0) differ.  At binary64 the boolean depends on the order even
    with a non-zero divisor and no shared end point: for ((0,0),(2^600,0))
    and ((-2^600,0),(-2^600,2^600)) the first order computes a NaN
    position, which passes the range test, and answers [true]; the other
    order answers [false]. *)
Lemma intersects_order_matters :
  (option_map fst (intersects (Exact.seg 0 0 1 0) (Exact.seg 1 0 2 0)) = Some true
   /\ option_map fst (intersects (Exact.seg 1 0 2 0) (Exact.seg 0 0 1 0)) = Some false
   /\ intersects (seg 0 0 1 0) (seg 1 0 2 0) = Some (true, pt 1 0)
   /\ intersects (seg 1 0 2 0) (seg 0 0 1 0) = Some (false, pt 1 0))
  /\ (intersects (Exact.seg 0 0 1 0) (Exact.seg 1 0 0 0) = Some (true, Exact.pt 1 0)
      /\ intersects (Exact.seg 1 0 0 0) (Exact.seg 0 0 1 0) = Some (true, Exact.pt 0 0)
      /\ intersects (seg 0 0 1 0) (seg 1 0 0 0) = Some (true, pt 1 0)
      /\ intersects (seg 1 0 0 0) (seg 0 0 1 0) = Some (true, pt 0 0))
  /\ (Point_eq (pt huge 0) (pt (- huge) 0) = false
      /\ Point_eq (pt (- huge) huge) (pt 0 0) = false
      /\ (divisor (pt 0 0) (pt huge 0) (pt (- huge) 0) (pt (- huge) huge)
          == 0%float)%vt = false
      /\ intersects (seg 0 0 huge 0) (seg (- huge) 0 (- huge) huge)
         = Some (true, pt nan nan)
      /\ option_map fst (intersects (seg (- huge) 0 (- huge) huge) (seg 0 0 huge 0))
         = Some false).
Proof.
  destruct Exact.touching_collinear_both_orders as [H1 H2].
  split; [| split].
  - rewrite H1, H2. repeat split; vm_compute; reflexivity.
  - repeat split; try (vm_compute; reflexivity);
      unfold intersects, Exact.seg; cbn [start end_];
      apply Exact.findIntersection_touching.
  - repeat split; vm_compute; reflexivity.
Qed.

(** Over the reals, before the start of ((0,0),(1,0)) the start is the
    nearest point. *)
Lemma exact_distance_before_start :
  getDistanceFromPoint (Exact.seg 0 0 1 0) (Exact.pt (-16777216) 0)
  = Some (16777216%R, Exact.pt 0 0).
Proof.
  pose (l := Exact.seg 0 0 1 0). pose (p := Exact.pt (-16777216) 0).
  assert (N : start l <> end_ l).
  { unfold l, Exact.seg, Exact.pt; cbn [start end_]. intro H. injection H as H. lra. }
  pose proof (Segment.distance_point_value l p N) as Hv. cbv zeta in Hv.
  assert (Ht : Exact.proj_fraction l p = (-16777216)%R).
  { unfold Exact.proj_fraction, l, p, Exact.seg, Exact.pt; cbn [start end_ x y]. field. }
  rewrite Ht in Hv.
  destruct (Segment.clamp01_cases (-16777216)) as [[_ Hc] | [[[H _] _] | [H _]]];
    [| lra | lra].
  rewrite Hc, Segment.along_0 in Hv. fold l p. rewrite Hv.
  unfold l, p, Exact.seg, Exact.pt; cbn [start]. do 2 f_equal.
  unfold Exact.dist; cbn [x y].
  replace ((-16777216 - 0) * (-16777216 - 0) + (0 - 0) * (0 - 0))%R
    with (16777216 * 16777216)%R by ring.
  apply sqrt_square. lra.
Qed.

(** C6: the spec has [getDistanceFromPoint], when the projection falls
    outside the segment, return the end point nearer to the target and its
    straight-line distance.  The code stores the two end-point distances in
    C++ [float] variables before it compares them.  For the line
    ((0,0),(1,0)) and the target (-16777216, 0) the distances are 16777216
    from the start and 16777217 from the end; 16777217 is not a binary32
    value and narrows to 16777216; the comparison [fromStart < fromEnd]
    fails, and the method returns the end point (1,0) with the distance
    16777216, which is not the distance of that point.  Over the reals the
    same call returns the start (0,0), as [findNearestPointTo] does at
    binary64. *)
Theorem getDistanceFromPoint_narrowed_endpoints :
  getDistanceFromPoint (seg 0 0 1 0) (pt (-16777216) 0)
  = Some (16777216%float, pt 1 0)
  /\ getDistanceFrom (pt (-16777216) 0) (pt 0 0) = 16777216%float
  /\ getDistanceFrom (pt (-16777216) 0) (pt 1 0) = 16777217%float
  /\ round_to_float 16777216 = 16777216%float
  /\ round_to_float 16777217 = 16777216%float
  /\ findNearestPointTo (seg 0 0 1 0) (pt (-16777216) 0) = Some (pt 0 0)
  /\ getDistanceFromPoint (Exact.seg 0 0 1 0) (Exact.pt (-16777216) 0)
     = Some (16777216%R, Exact.pt 0 0).
Proof.
  repeat split; try (vm_compute; reflexivity).
  exact exact_distance_before_start.
Qed.

End Rounded.

(** * The narrowing of [getDistanceFromPoint]

    The instance [Exact.real] takes the conversion to [float] for the
    identity.  Here the coordinates stay exact and the conversion is an
    arbitrary function [narrow]: the two end-point distances of
    [getDistanceFromPoint] pass through it before they are compared. *)

Module Narrowed.

Import Exact.
Import Segment.
Local Open Scope R_scope.
Unset Implicit Arguments.

(** The coordinate type with exact arithmetic and a narrowing conversion
    that rounds: the operations of [Exact.real], with [narrow] for the
    conversion to C++ [float]. *)
Definition real_narrowed (narrow : R -> R) : ValueType R := {|
  v0 := 0;
  v1 := 1;
  v2 := 2;
  vadd := Rplus;
  vsub := Rminus;
  vmul := Rmult;
  vdiv := R_div;
  veqb := R_eqb;
  vltb := R_ltb;
  vleb := R_leb;
  hypot := fun a b => sqrt (a * a + b * b);
  to_float := narrow
|}.

(** A rounding never reverses an order. *)
Definition monotone (narrow : R -> R) : Prop :=
  forall a b : R, a <= b -> narrow a <= narrow b.

(** Rounding down to an integer, a narrowing that does round. *)
Definition round_down (a : R) : R := IZR (Int_part a).

Lemma round_down_monotone : monotone round_down.
Proof.
  intros a b Hab. unfold round_down. apply IZR_le.
  destruct (base_Int_part a) as [Ha _]. destruct (base_Int_part b) as [_ Hb].
  assert (H : IZR (Int_part a) < IZR (Int_part b + 1)) by (rewrite plus_IZR; lra).
  apply lt_IZR in H. lia.
Qed.

(** The point of the segment nearest to [p]: the one
    [findNearestPointTo] returns. *)
Lemma findNearestPointTo_value (l : Line R) (p : Point R) :
  exists n : Point R,
    findNearestPointTo l p = Some n
    /\ (forall r : Point R, on_segment l r -> dist p n <= dist p r)
    /\ (start l = end_ l -> n = end_ l)
    /\ (start l <> end_ l -> in01 (proj_fraction l p) ->
        n = Point_plus (start l)
              (Point_times (Point_minus (end_ l) (start l)) (proj_fraction l p)))
    /\ (start l <> end_ l -> proj_fraction l p < 0 ->
        n = start l /\ dist p (start l) < dist p (end_ l))
    /\ (start l <> end_ l -> 1 < proj_fraction l p ->
        n = end_ l /\ dist p (end_ l) < dist p (start l)).
Proof.
  destruct (Point_eq_spec (start l) (end_ l)) as [E | N].
  - destruct l as [a b]. cbn [start end_] in *. subst b. exists a.
    split; [| split; [| repeat split; intros; try reflexivity; now exfalso]].
    + unfold findNearestPointTo. rewrite nearest_position_degenerate.
      unfold bind, ret. now rewrite along_degenerate.
    + intros r (t & _ & ->). rewrite along_degenerate. lra.
  - exists (getPointAlongLineProportionally l (clamp01 (proj_fraction l p))).
    split; [| split; [| split; [| split; [| split]]]].
    + unfold findNearestPointTo. now rewrite nearest_position_value.
    + intros r (t & Ht & ->). apply dist_le. now apply clamped_projection_nearest.
    + intro E. now elim N.
    + intros _ Hin. destruct (clamp01_cases (proj_fraction l p)) as [[Hf _] | [[_ ->] | [Hf _]]];
        unfold in01 in Hin; try lra. reflexivity.
    + intros _ Hf. destruct (clamp01_cases (proj_fraction l p)) as [[_ ->] | [[Hin _] | [Hf' _]]];
        unfold in01 in *; try lra.
      split; [apply along_0 | now apply start_nearer_before].
    + intros _ Hf. destruct (clamp01_cases (proj_fraction l p)) as [[Hf' _] | [[Hin _] | [_ ->]]];
        unfold in01 in *; try lra.
      split; [apply along_1 | now apply end_nearer_beyond].
Qed.

(** The last statements of [getDistanceFromPoint], with the narrowing. *)
Lemma narrowed_endpoints (narrow : R -> R) (s e p : Point R) :
  monotone narrow ->
  exists (d : R) (q : Point R),
    (if R_ltb (narrow (dist p s)) (narrow (dist p e))
     then Some (narrow (dist p s), s) else Some (narrow (dist p e), e)) = Some (d, q)
    /\ ((q = s /\ d = narrow (dist p s) /\ dist p s < dist p e)
        \/ (q = e /\ d = narrow (dist p e)
            /\ (dist p s <= dist p e -> narrow (dist p s) = narrow (dist p e)))).
Proof.
  intro Hm.
  destruct (R_ltb_spec (narrow (dist p s)) (narrow (dist p e))) as [H | H].
  - exists (narrow (dist p s)), s. split; [reflexivity |]. left.
    repeat split. destruct (Rlt_dec (dist p s) (dist p e)) as [Hlt | Hge]; [exact Hlt |].
    pose proof (Hm (dist p e) (dist p s)). lra.
  - exists (narrow (dist p e)), e. split; [reflexivity |]. right.
    repeat split. intro Hle. pose proof (Hm _ _ Hle). lra.
Qed.



End Narrowed.

(** * The rest of juce_MathsFunctions.h: comparisons and scans

    The templates over an ordered [Type], written over the same interface
    as [Line]: [Type()] is the zero of the interface. *)

Section Scans.

Context {V : Type} {VT : ValueType V}.
Local Open Scope vt_scope.
Local Open Scope list_scope.

(** [jmax (a, b, c)]. *)
Definition jmax3 (a b c : V) : V :=
  if a < b then (if b < c then c else b) else (if a < c then c else a).

(** [jmax (a, b, c, d)]. *)
Definition jmax4 (a b c d : V) : V := jmax a (jmax3 b c d).

(** [jmin (a, b, c)]. *)
Definition jmin3 (a b c : V) : V :=
  if b < a then (if c < b then c else b) else (if c < a then c else a).

(** [jmin (a, b, c, d)]. *)
Definition jmin4 (a b c d : V) : V := jmin a (jmin3 b c d).

(** The loop of [findMinimum]: [numValues] more elements are read through
    the pointer; reading past the end of the array has no result. *)
Fixpoint findMinimum_loop (result : V) (data : list V) (numValues : nat) : option V :=
  match numValues with
  | O => Some result
  | S n =>
      match data with
      | nil => None
      | v :: rest => findMinimum_loop (if v < result then v else result) rest n
      end
  end.

(** [findMinimum (data, numValues)]. *)
Definition findMinimum (data : list V) (numValues : Z) : option V :=
  if (numValues <=? 0)%Z then Some v0
  else
    match data with
    | nil => None
    | first :: rest => findMinimum_loop first rest (Z.to_nat (numValues - 1))
    end.

(** The loop of [findMaximum]: [if (result > v) result = v]. *)
Fixpoint findMaximum_loop (result : V) (values : list V) (numValues : nat) : option V :=
  match numValues with
  | O => Some result
  | S n =>
      match values with
      | nil => None
      | v :: rest => findMaximum_loop (if result > v then v else result) rest n
      end
  end.

(** [findMaximum (values, numValues)]. *)
Definition findMaximum (values : list V) (numValues : Z) : option V :=
  if (numValues <=? 0)%Z then Some v0
  else
    match values with
    | nil => None
    | first :: rest => findMaximum_loop first rest (Z.to_nat (numValues - 1))
    end.

(** The loop of [findMinAndMax], on the pair [(mn, mx)]. *)
Fixpoint findMinAndMax_loop (mn mx : V) (values : list V) (numValues : nat)
  : option (V * V) :=
  match numValues with
  | O => Some (mn, mx)
  | S n =>
      match values with
      | nil => None
      | v :: rest =>
          let mx' := if mx < v then v else mx in
          let mn' := if v < mn then v else mn in
          findMinAndMax_loop mn' mx' rest n
      end
  end.

(** [findMinAndMax (values, numValues, lowest, highest)]: the pair
    [(lowest, highest)]. *)
Definition findMinAndMax (values : list V) (numValues : Z) : option (V * V) :=
  if (numValues <=? 0)%Z then Some (v0, v0)
  else
    match values with
    | nil => None
    | first :: rest => findMinAndMax_loop first first rest (Z.to_nat (numValues - 1))
    end.

(** The generic [isPositiveAndBelow (valueToTest, upperLimit)]. *)
Definition isPositiveAndBelow (valueToTest upperLimit : V) : bool :=
  (v0 <= valueToTest) && (valueToTest < upperLimit).

(** The generic [isPositiveAndNotGreaterThan (valueToTest, upperLimit)]. *)
Definition isPositiveAndNotGreaterThan (valueToTest upperLimit : V) : bool :=
  (v0 <= valueToTest) && (valueToTest <= upperLimit).

End Scans.

Module ScanFacts.

Import Exact.
Local Open Scope R_scope.
Local Open Scope list_scope.
Unset Implicit Arguments.

(** The part of the array that a call with [numValues] reads. *)
Definition scanned (data : list R) (numValues : Z) : list R :=
  firstn (Z.to_nat numValues) data.

Lemma R_ltb_Rmax (a b : R) : (if R_ltb a b then b else a) = Rmax a b.
Proof. unfold Rmax. destruct (R_ltb_spec a b), (Rle_dec a b); lra. Qed.

Lemma R_ltb_Rmin (a b : R) : (if R_ltb b a then b else a) = Rmin a b.
Proof. unfold Rmin. destruct (R_ltb_spec b a), (Rle_dec a b); lra. Qed.

(** X15: [jmax] of two, three and four values is the greatest of them, and
    [jmin] the least. *)
Theorem jmax_jmin_extremes (a b c d : R) :
  jmax a b = Rmax a b
  /\ jmax3 a b c = Rmax a (Rmax b c)
  /\ jmax4 a b c d = Rmax a (Rmax b (Rmax c d))
  /\ jmin a b = Rmin a b
  /\ jmin3 a b c = Rmin a (Rmin b c)
  /\ jmin4 a b c d = Rmin a (Rmin b (Rmin c d)).
Proof.
  assert (H3 : forall u v w : R, jmax3 u v w = Rmax u (Rmax v w)).
  { intros u v w. unfold jmax3; cbn [vltb real]. unfold Rmax.
    destruct (R_ltb_spec u v), (R_ltb_spec v w), (R_ltb_spec u w);
      destruct (Rle_dec v w); destruct (Rle_dec u v); destruct (Rle_dec u w); lra. }
  assert (M3 : forall u v w : R, jmin3 u v w = Rmin u (Rmin v w)).
  { intros u v w. unfold jmin3; cbn [vltb real]. unfold Rmin.
    destruct (R_ltb_spec v u), (R_ltb_spec w v), (R_ltb_spec w u);
      destruct (Rle_dec v w); destruct (Rle_dec u v); destruct (Rle_dec u w); lra. }
  repeat split.
  - apply R_ltb_Rmax.
  - apply H3.
  - unfold jmax4. rewrite H3. apply R_ltb_Rmax.
  - apply R_ltb_Rmin.
  - apply M3.
  - unfold jmin4. rewrite M3. apply R_ltb_Rmin.
Qed.

(** X16: with the limits in order, [jlimit] is
    [jmax (lowerLimit, jmin (upperLimit, value))], as its documentation
    says: a value within the limits, and the value itself when that lies
    within them. *)
Theorem jlimit_in_order (lo hi v : R) :
  lo <= hi ->
  jlimit lo hi v = jmax lo (jmin hi v)
  /\ lo <= jlimit lo hi v <= hi
  /\ (lo <= v <= hi -> jlimit lo hi v = v).
Proof.
  intro H. unfold jlimit, jmax, jmin; cbn [vltb real].
  destruct (R_ltb_spec v lo), (R_ltb_spec hi v), (R_ltb_spec v hi);
    try lra;
    match goal with
    | |- context [R_ltb lo ?z] => destruct (R_ltb_spec lo z)
    end; repeat split; intros; lra.
Qed.

Lemma jlimit_in_order_witness :
  jlimit 0 10 12 = jmax 0 (jmin 10 12)
  /\ 0 <= jlimit 0 10 12 <= 10
  /\ (0 <= 12 <= 10 -> jlimit 0 10 12 = 12).
Proof. apply jlimit_in_order. lra. Defined.

(** The invariant of the three scanning loops. *)
Lemma findMinimum_loop_least (data : list R) (n : nat) (result : R) :
  (n <= length data)%nat ->
  exists m : R,
    findMinimum_loop result data n = Some m
    /\ (m = result \/ In m (firstn n data))
    /\ m <= result
    /\ forall v : R, In v (firstn n data) -> m <= v.
Proof.
  revert n result. induction data as [| a rest IH]; intros n result Hn.
  - destruct n; [| cbn in Hn; lia]. exists result. cbn. intuition lra.
  - destruct n as [| n].
    + exists result. cbn. intuition lra.
    + cbn [findMinimum_loop firstn vltb real]. cbn in Hn.
      destruct (IH n (if R_ltb a result then a else result) ltac:(lia))
        as (m & Hr & Hin & Hle & Hall).
      exists m. split; [exact Hr |].
      destruct (R_ltb_spec a result) as [Hlt | Hge].
      * repeat split.
        -- destruct Hin as [-> | Hin]; [right; now left | right; now right].
        -- lra.
        -- intros v [<- | Hv]; [lra | now apply Hall].
      * repeat split.
        -- destruct Hin as [-> | Hin]; [now left | right; now right].
        -- lra.
        -- intros v [<- | Hv]; [lra | now apply Hall].
Qed.

Lemma findMaximum_loop_is_findMinimum_loop (values : list R) (n : nat) (result : R) :
  findMaximum_loop result values n = findMinimum_loop result values n.
Proof. reflexivity. Qed.

Lemma findMinAndMax_loop_bounds (values : list R) (n : nat) (mn mx : R) :
  (n <= length values)%nat ->
  exists lo hi : R,
    findMinAndMax_loop mn mx values n = Some (lo, hi)
    /\ (lo = mn \/ In lo (firstn n values))
    /\ (hi = mx \/ In hi (firstn n values))
    /\ lo <= mn /\ mx <= hi
    /\ forall v : R, In v (firstn n values) -> lo <= v <= hi.
Proof.
  revert n mn mx. induction values as [| a rest IH]; intros n mn mx Hn.
  - destruct n; [| cbn in Hn; lia]. exists mn, mx. cbn. intuition lra.
  - destruct n as [| n].
    + exists mn, mx. cbn. intuition lra.
    + cbn [findMinAndMax_loop firstn vltb real]. cbn in Hn.
      destruct (IH n (if R_ltb a mn then a else mn) (if R_ltb mx a then a else mx)
                  ltac:(lia))
        as (lo & hi & Hr & Hlo & Hhi & Hle & Hge & Hall).
      exists lo, hi. split; [exact Hr |].
      destruct (R_ltb_spec a mn) as [H1 | H1], (R_ltb_spec mx a) as [H2 | H2];
        (split; [destruct Hlo as [-> | Hlo]; [first [now left | right; now left] | right; now right] |]);
        (split; [destruct Hhi as [-> | Hhi]; [first [now left | right; now left] | right; now right] |]);
        (split; [lra |]); (split; [lra |]);
        intros v [<- | Hv]; try lra; now apply Hall.
Qed.

Lemma scanned_cons (a : R) (rest : list R) (n : Z) :
  (0 < n)%Z ->
  scanned (a :: rest) n = a :: firstn (Z.to_nat (n - 1)) rest.
Proof.
  intro H. unfold scanned.
  replace (Z.to_nat n) with (S (Z.to_nat (n - 1))) by lia. reflexivity.
Qed.

(** X17: given a positive count within the array, [findMinimum] returns
    one of the values it scans, and none of them is smaller. *)
Theorem findMinimum_least (data : list R) (numValues : Z) :
  (0 < numValues <= Z.of_nat (length data))%Z ->
  exists m : R,
    findMinimum data numValues = Some m
    /\ In m (scanned data numValues)
    /\ forall v : R, In v (scanned data numValues) -> m <= v.
Proof.
  intros [Hpos Hlen]. unfold findMinimum.
  destruct (Z.leb_spec numValues 0) as [H | _]; [lia |].
  destruct data as [| a rest]; [cbn in Hlen; lia |].
  rewrite scanned_cons by exact Hpos. cbn [length] in Hlen.
  destruct (findMinimum_loop_least rest (Z.to_nat (numValues - 1)) a ltac:(lia))
    as (m & Hr & Hin & Hle & Hall).
  exists m. split; [exact Hr |]. split.
  - destruct Hin as [-> | Hin]; [now left | now right].
  - intros v [<- | Hv]; [exact Hle | now apply Hall].
Qed.

Lemma findMinimum_least_witness :
  exists m : R,
    findMinimum (3 :: 1 :: 2 :: 0 :: nil) 3 = Some m
    /\ In m (scanned (3 :: 1 :: 2 :: 0 :: nil) 3)
    /\ forall v : R, In v (scanned (3 :: 1 :: 2 :: 0 :: nil) 3) -> m <= v.
Proof. apply findMinimum_least. cbn. lia. Defined.

(** X18: [findMaximum] compares the way [findMinimum] does
    ([if (result > v) result = v]): given a positive count within the
    array, it returns one of the values it scans, and none of them is
    smaller.  What it returns is the least value, not the greatest. *)
Theorem findMaximum_returns_least (values : list R) (numValues : Z) :
  (0 < numValues <= Z.of_nat (length values))%Z ->
  exists m : R,
    findMaximum values numValues = Some m
    /\ In m (scanned values numValues)
    /\ forall v : R, In v (scanned values numValues) -> m <= v.
Proof.
  intros [Hpos Hlen]. unfold findMaximum.
  destruct (Z.leb_spec numValues 0) as [H | _]; [lia |].
  destruct values as [| a rest]; [cbn in Hlen; lia |].
  rewrite scanned_cons by exact Hpos. cbn [length] in Hlen.
  rewrite findMaximum_loop_is_findMinimum_loop.
  destruct (findMinimum_loop_least rest (Z.to_nat (numValues - 1)) a ltac:(lia))
    as (m & Hr & Hin & Hle & Hall).
  exists m. split; [exact Hr |]. split.
  - destruct Hin as [-> | Hin]; [now left | now right].
  - intros v [<- | Hv]; [exact Hle | now apply Hall].
Qed.

(** On 1, 2, 3 the call returns 1. *)
Lemma findMaximum_returns_least_witness :
  findMaximum (1 :: 2 :: 3 :: nil) 3 = Some 1.
Proof.
  destruct (findMaximum_returns_least (1 :: 2 :: 3 :: nil) 3 ltac:(cbn; lia))
    as (m & Hr & Hin & Hall).
  rewrite Hr. f_equal.
  pose proof (Hall 1 ltac:(cbn; left; reflexivity)) as H1.
  cbn in Hin. destruct Hin as [<- | [<- | [<- | []]]]; lra.
Defined.

(** X19: given a positive count within the array, [findMinAndMax] returns
    two of the values it scans, with every scanned value between them. *)
Theorem findMinAndMax_bounds (values : list R) (numValues : Z) :
  (0 < numValues <= Z.of_nat (length values))%Z ->
  exists lowest highest : R,
    findMinAndMax values numValues = Some (lowest, highest)
    /\ In lowest (scanned values numValues)
    /\ In highest (scanned values numValues)
    /\ forall v : R, In v (scanned values numValues) -> lowest <= v <= highest.
Proof.
  intros [Hpos Hlen]. unfold findMinAndMax.
  destruct (Z.leb_spec numValues 0) as [H | _]; [lia |].
  destruct values as [| a rest]; [cbn in Hlen; lia |].
  rewrite scanned_cons by exact Hpos. cbn [length] in Hlen.
  destruct (findMinAndMax_loop_bounds rest (Z.to_nat (numValues - 1)) a a ltac:(lia))
    as (lo & hi & Hr & Hlo & Hhi & Hle & Hge & Hall).
  exists lo, hi. split; [exact Hr |]. repeat split.
  - destruct Hlo as [-> | Hin]; [now left | now right].
  - destruct Hhi as [-> | Hin]; [now left | now right].
  - destruct H as [<- | Hv]; [exact Hle | now apply Hall].
  - destruct H as [<- | Hv]; [exact Hge | now apply Hall].
Qed.

Lemma findMinAndMax_bounds_witness :
  exists lowest highest : R,
    findMinAndMax (3 :: 1 :: 2 :: 0 :: nil) 3 = Some (lowest, highest)
    /\ In lowest (scanned (3 :: 1 :: 2 :: 0 :: nil) 3)
    /\ In highest (scanned (3 :: 1 :: 2 :: 0 :: nil) 3)
    /\ forall v : R,
         In v (scanned (3 :: 1 :: 2 :: 0 :: nil) 3) -> lowest <= v <= highest.
Proof. apply findMinAndMax_bounds. cbn. lia. Defined.

End ScanFacts.

(** * The rest of juce_MathsFunctions.h: integers

    A C++ [int] is an integer in [-2^31, 2^31), held in [Z]; arithmetic that
    leaves the range wraps around ([wrap32]), a conversion to
    [unsigned int] is the residue modulo 2^32, and [>>] on an [int] is the
    arithmetic shift. *)

Module Ints.

Local Open Scope Z_scope.
Unset Implicit Arguments.

Definition int_min : Z := - 2 ^ 31.
Definition int_max : Z := 2 ^ 31 - 1.

(** [z] is a value of type [int]. *)
Definition is_int (z : Z) : Prop := int_min <= z <= int_max.

(** The [int] that a result [z] is stored as. *)
Definition wrap32 (z : Z) : Z := (z + 2 ^ 31) mod 2 ^ 32 - 2 ^ 31.

(** [static_cast <unsigned int> (z)]. *)
Definition to_unsigned (z : Z) : Z := z mod 2 ^ 32.

(** The specialisation [isPositiveAndBelow (const int, const int)]. *)
Definition isPositiveAndBelow_int (valueToTest upperLimit : Z) : bool :=
  to_unsigned valueToTest <? to_unsigned upperLimit.

(** The specialisation [isPositiveAndNotGreaterThan (const int, const int)]. *)
Definition isPositiveAndNotGreaterThan_int (valueToTest upperLimit : Z) : bool :=
  to_unsigned valueToTest <=? to_unsigned upperLimit.

(** [isPowerOfTwo (value)], at [IntegerType = int]. *)
Definition isPowerOfTwo (value : Z) : bool :=
  Z.land value (wrap32 (value - 1)) =? 0.

(** [nextPowerOfTwo (n)]. *)
Definition nextPowerOfTwo (n : Z) : Z :=
  let n := wrap32 (n - 1) in
  let n := Z.lor n (Z.shiftr n 1) in
  let n := Z.lor n (Z.shiftr n 2) in
  let n := Z.lor n (Z.shiftr n 4) in
  let n := Z.lor n (Z.shiftr n 8) in
  let n := Z.lor n (Z.shiftr n 16) in
  wrap32 (n + 1).

(** [negativeAwareModulo (dividend, divisor)], at [IntegerType = int]; the
    C++ [%] truncates towards zero ([Z.rem]). *)
Definition negativeAwareModulo (dividend divisor : Z) : Z :=
  let dividend := Z.rem dividend divisor in
  if dividend <? 0 then wrap32 (dividend + divisor) else dividend.

Lemma wrap32_id (z : Z) : is_int z -> wrap32 z = z.
Proof.
  unfold is_int, int_min, int_max, wrap32. intro H.
  rewrite Z.mod_small; lia.
Qed.

(** X20: for an upper limit that is not negative, the [int] specialisations
    of [isPositiveAndBelow] and [isPositiveAndNotGreaterThan], which compare
    the two values as unsigned, answer as the two-sided tests they stand
    for: [0 <= value && value < limit], and [0 <= value && value <= limit]. *)
Theorem isPositiveAndBelow_int_spec (valueToTest upperLimit : Z) :
  is_int valueToTest -> is_int upperLimit -> 0 <= upperLimit ->
  isPositiveAndBelow_int valueToTest upperLimit
  = (0 <=? valueToTest) && (valueToTest <? upperLimit)
  /\ isPositiveAndNotGreaterThan_int valueToTest upperLimit
     = (0 <=? valueToTest) && (valueToTest <=? upperLimit).
Proof.
  unfold is_int, int_min, int_max, isPositiveAndBelow_int,
    isPositiveAndNotGreaterThan_int, to_unsigned.
  intros Hv Hl H0.
  rewrite (Z.mod_small upperLimit) by lia.
  destruct (Z.leb_spec 0 valueToTest) as [Hp | Hn]; cbn [andb].
  - rewrite (Z.mod_small valueToTest) by lia. split; reflexivity.
  - assert (Hm : valueToTest mod 2 ^ 32 = valueToTest + 2 ^ 32).
    { symmetry. apply (Z.mod_unique valueToTest (2 ^ 32) (-1)); lia. }
    rewrite Hm. split; [apply Z.ltb_ge | apply Z.leb_gt]; lia.
Qed.

Lemma isPositiveAndBelow_int_spec_witness :
  isPositiveAndBelow_int (-1) 10 = (0 <=? -1) && (-1 <? 10)
  /\ isPositiveAndNotGreaterThan_int (-1) 10 = (0 <=? -1) && (-1 <=? 10).
Proof.
  apply isPositiveAndBelow_int_spec; unfold is_int, int_min, int_max; lia.
Defined.

(** X21: for a positive divisor [negativeAwareModulo] is the mathematical
    residue: a value in [0, divisor) that differs from the dividend by a
    multiple of the divisor, for negative dividends too. *)
Theorem negativeAwareModulo_is_mod (dividend divisor : Z) :
  is_int dividend -> is_int divisor -> 0 < divisor ->
  negativeAwareModulo dividend divisor = dividend mod divisor
  /\ 0 <= negativeAwareModulo dividend divisor < divisor.
Proof.
  intros Ha Hd Hpos. unfold negativeAwareModulo.
  pose proof (Z.quot_rem' dividend divisor) as Hqr.
  assert (Hb : - divisor < Z.rem dividend divisor < divisor).
  { pose proof (Z.rem_bound_abs dividend divisor ltac:(lia)). lia. }
  assert (Hres : (if Z.rem dividend divisor <? 0
                  then wrap32 (Z.rem dividend divisor + divisor)
                  else Z.rem dividend divisor) = dividend mod divisor).
  { destruct (Z.ltb_spec (Z.rem dividend divisor) 0) as [Hneg | Hnn].
    - rewrite wrap32_id by (unfold is_int, int_min, int_max in *; lia).
      apply (Z.mod_unique dividend divisor (dividend ÷ divisor - 1)); lia.
    - apply (Z.mod_unique dividend divisor (dividend ÷ divisor)); lia. }
  cbv zeta. rewrite Hres. split; [reflexivity |].
  apply Z.mod_pos_bound. exact Hpos.
Qed.

Lemma negativeAwareModulo_is_mod_witness :
  negativeAwareModulo (-7) 3 = (-7) mod 3
  /\ 0 <= negativeAwareModulo (-7) 3 < 3.
Proof.
  apply negativeAwareModulo_is_mod; unfold is_int, int_min, int_max; lia.
Defined.

(** *** Powers of two *)

Lemma land_pow2_pred (k : Z) : 0 <= k -> Z.land (2 ^ k) (2 ^ k - 1) = 0.
Proof.
  intro Hk. apply Z.bits_inj'. intros i Hi.
  rewrite Z.land_spec, Z.bits_0, Z.pow2_bits_eqb by exact Hk.
  replace (2 ^ k - 1) with (Z.ones k) by (rewrite Z.ones_equiv; lia).
  destruct (Z.eqb_spec k i) as [<- | Hne]; [| reflexivity].
  rewrite Z.ones_spec_high by lia. reflexivity.
Qed.

(** A positive value that shares no bit with its predecessor is a power of
    two: otherwise both have the top bit of the value. *)
Lemma land_pred_zero_pow2 (v : Z) :
  0 < v -> Z.land v (v - 1) = 0 -> v = 2 ^ Z.log2 v.
Proof.
  intros Hv Hland.
  destruct (Z.log2_spec v Hv) as [Hlo Hhi].
  destruct (Z.eq_dec v (2 ^ Z.log2 v)) as [E | Hne]; [exact E | exfalso].
  assert (Hlog : Z.log2 (v - 1) = Z.log2 v).
  { apply Z.log2_unique; [apply Z.log2_nonneg | lia]. }
  assert (Hb1 : Z.testbit v (Z.log2 v) = true) by (apply Z.bit_log2; lia).
  assert (Hb2 : Z.testbit (v - 1) (Z.log2 v) = true).
  { rewrite <- Hlog. apply Z.bit_log2.
    pose proof (Z.pow_pos_nonneg 2 (Z.log2 v) ltac:(lia) (Z.log2_nonneg v)). lia. }
  assert (Hb : Z.testbit (Z.land v (v - 1)) (Z.log2 v) = true).
  { now rewrite Z.land_spec, Hb1, Hb2. }
  rewrite Hland, Z.bits_0 in Hb. discriminate.
Qed.

(** X22: [isPowerOfTwo] answers [true] for a positive [int] exactly when it
    is a power of two; it also answers [true] for zero. *)
Theorem isPowerOfTwo_spec (value : Z) :
  0 < value <= int_max ->
  (isPowerOfTwo value = true <-> exists k : Z, 0 <= k /\ value = 2 ^ k)
  /\ isPowerOfTwo 0 = true.
Proof.
  intro Hv. split; [| reflexivity].
  unfold isPowerOfTwo.
  rewrite wrap32_id by (unfold is_int, int_min, int_max in *; lia).
  rewrite Z.eqb_eq. split.
  - intro H. exists (Z.log2 value). split; [apply Z.log2_nonneg |].
    apply land_pred_zero_pow2; [lia | exact H].
  - intros (k & Hk & ->). now apply land_pow2_pred.
Qed.

Lemma isPowerOfTwo_spec_witness :
  (isPowerOfTwo 64 = true <-> exists k : Z, 0 <= k /\ 64 = 2 ^ k)
  /\ isPowerOfTwo 0 = true.
Proof. apply isPowerOfTwo_spec. unfold int_max. lia. Defined.

(** One step of [nextPowerOfTwo]: [n |= (n >> s)]. *)
Definition or_shift (z s : Z) : Z := Z.lor z (Z.shiftr z s).

Lemma or_shift_bit (z s i : Z) :
  0 <= i -> 0 <= s ->
  Z.testbit (or_shift z s) i = Z.testbit z i || Z.testbit z (i + s).
Proof.
  intros Hi Hs. unfold or_shift.
  now rewrite Z.lor_spec, Z.shiftr_spec by exact Hi.
Qed.

(** After the steps for 1, 2, ..., a bit of the result is set exactly when
    one of the [w] bits of [m] from that position upwards is. *)
Definition smeared (m z w : Z) : Prop :=
  forall i : Z, 0 <= i ->
    (Z.testbit z i = true <-> exists j : Z, 0 <= j < w /\ Z.testbit m (i + j) = true).

Lemma smeared_start (m : Z) : smeared m m 1.
Proof.
  intros i Hi. split.
  - intro H. exists 0. split; [lia |]. now rewrite Z.add_0_r.
  - intros (j & Hj & H). replace (i + j) with i in H by lia. exact H.
Qed.

Lemma smeared_step (m z w : Z) :
  0 < w -> smeared m z w -> smeared m (or_shift z w) (2 * w).
Proof.
  intros Hw Hz i Hi. rewrite or_shift_bit, orb_true_iff by lia.
  rewrite (Hz i Hi), (Hz (i + w) ltac:(lia)). split.
  - intros [(j & Hj & H) | (j & Hj & H)].
    + exists j. split; [lia | exact H].
    + exists (w + j). split; [lia |]. now rewrite Z.add_assoc.
  - intros (j & Hj & H). destruct (Z.lt_ge_cases j w) as [Hlt | Hge].
    + left. exists j. split; [lia | exact H].
    + right. exists (j - w). split; [lia |].
      now replace (i + w + (j - w)) with (i + j) by lia.
Qed.

(** The five steps together. *)
Lemma smeared_32 (m : Z) :
  smeared m
    (or_shift (or_shift (or_shift (or_shift (or_shift m 1) 2) 4) 8) 16) 32.
Proof.
  pose proof (smeared_step m _ 1 ltac:(lia) (smeared_start m)) as H2.
  pose proof (smeared_step m _ 2 ltac:(lia) H2) as H4.
  pose proof (smeared_step m _ 4 ltac:(lia) H4) as H8.
  pose proof (smeared_step m _ 8 ltac:(lia) H8) as H16.
  exact (smeared_step m _ 16 ltac:(lia) H16).
Qed.

Lemma nextPowerOfTwo_unfold (n : Z) :
  nextPowerOfTwo n =
  wrap32 (or_shift (or_shift (or_shift (or_shift (or_shift
            (wrap32 (n - 1)) 1) 2) 4) 8) 16 + 1).
Proof. reflexivity. Qed.

(** For [0 < m < 2^31] the five steps set every bit up to the top bit
    of [m]. *)
Lemma smear_positive (m : Z) :
  0 < m < 2 ^ 31 ->
  or_shift (or_shift (or_shift (or_shift (or_shift m 1) 2) 4) 8) 16
  = 2 ^ (Z.log2 m + 1) - 1.
Proof.
  intros [Hpos Hlt].
  assert (Hk : 0 <= Z.log2 m < 31).
  { split; [apply Z.log2_nonneg |]. apply Z.log2_lt_pow2; lia. }
  replace (2 ^ (Z.log2 m + 1) - 1) with (Z.ones (Z.log2 m + 1))
    by (rewrite Z.ones_equiv; lia).
  apply Z.bits_inj'. intros i Hi.
  apply eq_true_iff_eq. rewrite (smeared_32 m i Hi).
  rewrite Z.ones_spec_iff by lia. split.
  - intros (j & Hj & H). split; [lia |].
    destruct (Z.lt_ge_cases (Z.log2 m) (i + j)) as [Habove | Hle]; [| lia].
    rewrite Z.bits_above_log2 in H by lia. discriminate.
  - intros [_ Hi']. exists (Z.log2 m - i). split; [lia |].
    replace (i + (Z.log2 m - i)) with (Z.log2 m) by lia.
    apply Z.bit_log2. lia.
Qed.

(** For a negative [int] they set every bit. *)
Lemma smear_negative (m : Z) :
  int_min <= m < 0 ->
  or_shift (or_shift (or_shift (or_shift (or_shift m 1) 2) 4) 8) 16 = -1.
Proof.
  unfold int_min. intros [Hlo Hneg].
  apply Z.bits_inj'. intros i Hi.
  rewrite Z.bits_m1 by exact Hi.
  apply (smeared_32 m i Hi).
  exists (Z.max 0 (31 - i)). split; [lia |].
  apply Z.bits_above_log2_neg; [lia |].
  assert (Z.log2 (Z.pred (- m)) < 31).
  { destruct (Z.eq_dec m (-1)) as [-> | Hne]; [cbn; lia |].
    apply Z.log2_lt_pow2; lia. }
  lia.
Qed.

(** X23: for [1 <= n <= 2^30], [nextPowerOfTwo] returns the least power of
    two that is not below [n]: a power of two [r] with [n <= r < 2 * n]. *)
Theorem nextPowerOfTwo_least_power (n : Z) :
  1 <= n <= 2 ^ 30 ->
  exists k : Z,
    0 <= k <= 30
    /\ nextPowerOfTwo n = 2 ^ k
    /\ n <= 2 ^ k < 2 * n.
Proof.
  intro Hn. rewrite nextPowerOfTwo_unfold.
  rewrite (wrap32_id (n - 1)) by (unfold is_int, int_min, int_max; lia).
  destruct (Z.eq_dec n 1) as [-> | Hne].
  - exists 0. repeat split; try lia.
  - pose proof (Z.log2_spec (n - 1) ltac:(lia)) as [Hlo Hhi].
    assert (Hk : 0 <= Z.log2 (n - 1) < 30).
    { split; [apply Z.log2_nonneg |]. apply Z.log2_lt_pow2; lia. }
    rewrite smear_positive by lia.
    replace (Z.succ (Z.log2 (n - 1))) with (Z.log2 (n - 1) + 1) in Hhi by lia.
    assert (Hpow : 2 ^ (Z.log2 (n - 1) + 1) = 2 * 2 ^ Z.log2 (n - 1)).
    { rewrite Z.pow_add_r by lia. lia. }
    assert (Hle : 2 ^ (Z.log2 (n - 1) + 1) <= 2 ^ 30).
    { apply Z.pow_le_mono_r; lia. }
    exists (Z.log2 (n - 1) + 1). split; [lia |].
    replace (2 ^ (Z.log2 (n - 1) + 1) - 1 + 1) with (2 ^ (Z.log2 (n - 1) + 1)) by lia.
    rewrite wrap32_id by (unfold is_int, int_min, int_max; lia).
    split; [reflexivity | lia].
Qed.

Lemma nextPowerOfTwo_least_power_witness :
  exists k : Z,
    0 <= k <= 30 /\ nextPowerOfTwo 100 = 2 ^ k /\ 100 <= 2 ^ k < 2 * 100.
Proof. apply nextPowerOfTwo_least_power. lia. Defined.

(** X24: for an [int] that is zero or negative (above the least [int])
    [nextPowerOfTwo] returns 0, which is no power of two. *)
Theorem nextPowerOfTwo_of_nonpositive (n : Z) :
  int_min < n <= 0 -> nextPowerOfTwo n = 0.
Proof.
  unfold int_min. intro Hn. rewrite nextPowerOfTwo_unfold.
  rewrite (wrap32_id (n - 1)) by (unfold is_int, int_min, int_max; lia).
  rewrite smear_negative by (unfold int_min; lia).
  reflexivity.
Qed.

Lemma nextPowerOfTwo_of_nonpositive_witness : nextPowerOfTwo (-5) = 0.
Proof. apply nextPowerOfTwo_of_nonpositive. unfold int_min. lia. Defined.

End Ints.

(** * juce_MemoryBlock.cpp: bit ranges

    [getBitRange] and [setBitRange], the two callers of [jmin] outside
    juce_Line.h.  The block is its sequence of bytes ([size] is its length);
    a byte is held as the unsigned value of its eight bits, in [0, 256).
    Both methods combine [data[byte]] only with masks that fit a byte, or
    keep only the low eight bits of the result, so the sign of a C++ [char]
    does not enter. *)

Module MemoryBlock.

Import Ints.
Local Open Scope Z_scope.
Local Open Scope list_scope.
Unset Implicit Arguments.

(** [jmin (a, b)] at [Type = int]. *)
Definition jmin_int (a b : Z) : Z := if b <? a then b else a.

(** [~] on an [unsigned int]. *)
Definition not32 (z : Z) : Z := 2 ^ 32 - 1 - z.

(** The loop of [getBitRange], from the byte it has reached: [rest] holds
    the bytes from [data[byte]] to the end of the block. *)
Fixpoint getBitRange_loop (rest : list Z) (numBits offsetInByte bitsSoFar res : Z) : Z :=
  match rest with
  | nil => res
  | b :: rest' =>
      if numBits <=? 0 then res
      else
        let bitsThisTime := jmin_int numBits (8 - offsetInByte) in
        let mask := Z.shiftl (Z.shiftr 255 (8 - bitsThisTime)) offsetInByte in
        let res' :=
          wrap32 (Z.lor res
                    (Z.shiftl (Z.shiftr (Z.land b mask) offsetInByte) bitsSoFar)) in
        getBitRange_loop rest' (numBits - bitsThisTime) 0
          (bitsSoFar + bitsThisTime) res'
  end.

(** [MemoryBlock::getBitRange (bitRangeStart, numBits)]. *)
Definition getBitRange (data : list Z) (bitRangeStart numBits : Z) : Z :=
  let byte := Z.shiftr bitRangeStart 3 in
  let offsetInByte := Z.land bitRangeStart 7 in
  getBitRange_loop (skipn (Z.to_nat byte) data) numBits offsetInByte 0 0.

(** The loop of [setBitRange], from the byte it has reached: the bytes from
    there to the end of the block, as the loop leaves them. *)
Fixpoint setBitRange_loop (rest : list Z) (numBits offsetInByte bitsToSet mask : Z)
  : list Z :=
  match rest with
  | nil => nil
  | b :: rest' =>
      if numBits <=? 0 then b :: rest'
      else
        let bitsThisTime := jmin_int numBits (8 - offsetInByte) in
        let tempMask :=
          Z.lor (to_unsigned (Z.shiftl mask offsetInByte))
                (not32 (to_unsigned
                          (Z.shiftl (Z.shiftr (2 ^ 32 - 1) offsetInByte) offsetInByte))) in
        let tempBits := to_unsigned (Z.shiftl (to_unsigned bitsToSet) offsetInByte) in
        (Z.lor (Z.land b tempMask) tempBits) mod 256
        :: setBitRange_loop rest' (numBits - bitsThisTime) 0
             (Z.shiftr bitsToSet bitsThisTime) (Z.shiftr mask bitsThisTime)
  end.

(** [MemoryBlock::setBitRange (bitRangeStart, numBits, bitsToSet)]: the
    bytes of the block after the call. *)
Definition setBitRange (data : list Z) (bitRangeStart numBits bitsToSet : Z) : list Z :=
  let byte := Z.shiftr bitRangeStart 3 in
  let offsetInByte := Z.land bitRangeStart 7 in
  let mask :=
    not32 (Z.shiftr (to_unsigned (Z.shiftl (2 ^ 32 - 1) (32 - numBits)))
                    (32 - numBits)) in
  firstn (Z.to_nat byte) data
  ++ setBitRange_loop (skipn (Z.to_nat byte) data) numBits offsetInByte bitsToSet mask.

(** The bytes of a block are bytes. *)
Definition bytes (data : list Z) : Prop := Forall (fun b => 0 <= b < 256) data.

(** Bit [k] of the block: bit [k mod 8] of byte [k / 8], and no bit beyond
    the end. *)
Definition block_bit (data : list Z) (k : Z) : bool :=
  Z.testbit (nth (Z.to_nat (k / 8)) data 0) (k mod 8).

Lemma jmin_int_cases (a b : Z) :
  (b < a /\ jmin_int a b = b) \/ (a <= b /\ jmin_int a b = a).
Proof. unfold jmin_int. destruct (Z.ltb_spec b a); lia. Qed.

Lemma block_bit_nil (k : Z) : block_bit nil k = false.
Proof. unfold block_bit. destruct (Z.to_nat (k / 8)); apply Z.bits_0. Qed.

Lemma block_bit_cons (b : Z) (rest : list Z) (k : Z) :
  0 <= k ->
  block_bit (b :: rest) k = if k <? 8 then Z.testbit b k else block_bit rest (k - 8).
Proof.
  intro Hk. unfold block_bit. destruct (Z.ltb_spec k 8) as [Hlt | Hge].
  - rewrite Z.div_small, Z.mod_small by lia. reflexivity.
  - replace k with ((k - 8) + 1 * 8) at 1 2 by lia.
    rewrite Z.div_add, Z.mod_add by lia.
    replace (Z.to_nat ((k - 8) / 8 + 1)) with (S (Z.to_nat ((k - 8) / 8))).
    + reflexivity.
    + pose proof (Z.div_pos (k - 8) 8 ltac:(lia) ltac:(lia)). lia.
Qed.

(** A number that is not negative and has no bit from [n] upwards is below
    [2^n]. *)
Lemma below_pow2_of_bits (z n : Z) :
  0 <= z -> 0 <= n ->
  (forall i : Z, n <= i -> Z.testbit z i = false) ->
  z < 2 ^ n.
Proof.
  intros Hz Hn Hbits.
  destruct (Z.eq_dec z 0) as [-> | Hne].
  - apply Z.pow_pos_nonneg; lia.
  - apply Z.log2_lt_pow2; [lia |].
    destruct (Z.lt_ge_cases (Z.log2 z) n) as [H | H]; [exact H |].
    pose proof (Z.bit_log2 z ltac:(lia)) as Hb.
    rewrite (Hbits _ H) in Hb. discriminate.
Qed.

Lemma wrap32_small_bits (z n : Z) :
  0 <= z -> 0 <= n <= 31 ->
  (forall i : Z, n <= i -> Z.testbit z i = false) ->
  wrap32 z = z.
Proof.
  intros Hz Hn Hbits. apply wrap32_id.
  pose proof (below_pow2_of_bits z n Hz ltac:(lia) Hbits) as Hlt.
  assert (2 ^ n <= 2 ^ 31) by (apply Z.pow_le_mono_r; lia).
  unfold is_int, int_min, int_max. lia.
Qed.

(** The bits that one round of [getBitRange] adds to [res]. *)
Lemma piece_bit (b offset t bitsSoFar i : Z) :
  0 <= offset -> 0 <= t -> offset + t <= 8 -> 0 <= bitsSoFar -> 0 <= i ->
  Z.testbit
    (Z.shiftl (Z.shiftr (Z.land b (Z.shiftl (Z.shiftr 255 (8 - t)) offset)) offset)
       bitsSoFar) i
  = (bitsSoFar <=? i) && (i <? bitsSoFar + t) && Z.testbit b (offset + (i - bitsSoFar)).
Proof.
  intros Ho Ht Hot Hs Hi.
  rewrite Z.shiftl_spec by exact Hi.
  destruct (Z.leb_spec bitsSoFar i) as [Hle | Hgt]; cbn [andb].
  - rewrite Z.shiftr_spec, Z.land_spec by lia.
    rewrite Z.shiftl_spec, Z.shiftr_spec by lia.
    change 255 with (Z.ones 8). rewrite Z.testbit_ones_nonneg by lia.
    replace (i - bitsSoFar + offset) with (offset + (i - bitsSoFar)) by lia.
    destruct (Z.testbit b (offset + (i - bitsSoFar)));
      destruct (Z.ltb_spec i (bitsSoFar + t)),
               (Z.ltb_spec (offset + (i - bitsSoFar) - offset + (8 - t)) 8);
      try reflexivity; lia.
  - apply Z.testbit_neg_r. lia.
Qed.

Lemma getBitRange_loop_bits (rest : list Z) :
  forall numBits offset bitsSoFar res : Z,
    0 <= offset < 8 -> 0 <= bitsSoFar -> 0 <= numBits ->
    bitsSoFar + numBits <= 31 ->
    0 <= res ->
    (forall i : Z, bitsSoFar <= i -> Z.testbit res i = false) ->
    0 <= getBitRange_loop rest numBits offset bitsSoFar res
    /\ forall i : Z, 0 <= i ->
         Z.testbit (getBitRange_loop rest numBits offset bitsSoFar res) i
         = if i <? bitsSoFar then Z.testbit res i
           else (i <? bitsSoFar + numBits) && block_bit rest (offset + (i - bitsSoFar)).
Proof.
  induction rest as [| b rest' IH]; intros numBits offset bitsSoFar res Ho Hs Hn Hsum Hres Hhigh.
  - cbn [getBitRange_loop]. split; [exact Hres |]. intros i Hi.
    destruct (Z.ltb_spec i bitsSoFar) as [Hlt | Hge]; [reflexivity |].
    rewrite block_bit_nil, andb_false_r. now apply Hhigh.
  - cbn [getBitRange_loop].
    destruct (Z.leb_spec numBits 0) as [Hz | Hpos].
    + split; [exact Hres |]. intros i Hi.
      destruct (Z.ltb_spec i bitsSoFar) as [Hlt | Hge]; [reflexivity |].
      destruct (Z.ltb_spec i (bitsSoFar + numBits)); [lia |].
      cbn [andb]. now apply Hhigh.
    + cbv zeta.
      set (t := jmin_int numBits (8 - offset)).
      assert (Ht : 1 <= t <= 8 - offset /\ t <= numBits
                   /\ (t = numBits \/ t = 8 - offset)).
      { unfold t. destruct (jmin_int_cases numBits (8 - offset)) as [[? ->] | [? ->]]; lia. }
      set (piece := Z.shiftl (Z.shiftr (Z.land b (Z.shiftl (Z.shiftr 255 (8 - t)) offset))
                                       offset) bitsSoFar).
      assert (Hpiece : forall i : Z, 0 <= i ->
                 Z.testbit piece i
                 = (bitsSoFar <=? i) && (i <? bitsSoFar + t)
                   && Z.testbit b (offset + (i - bitsSoFar))).
      { intros i Hi. apply piece_bit; lia. }
      assert (Hor : forall i : Z, 0 <= i ->
                 Z.testbit (Z.lor res piece) i
                 = if i <? bitsSoFar then Z.testbit res i
                   else (i <? bitsSoFar + t) && Z.testbit b (offset + (i - bitsSoFar))).
      { intros i Hi. rewrite Z.lor_spec, Hpiece by exact Hi.
        destruct (Z.ltb_spec i bitsSoFar) as [Hlt | Hge].
        - destruct (Z.leb_spec bitsSoFar i); [lia |]. cbn [andb]. apply orb_false_r.
        - destruct (Z.leb_spec bitsSoFar i); [| lia]. cbn [andb].
          now rewrite (Hhigh i Hge). }
      assert (Hnn : 0 <= Z.lor res piece).
      { apply Z.lor_nonneg. split; [exact Hres |].
        unfold piece. apply Z.shiftl_nonneg, Z.shiftr_nonneg, Z.land_nonneg.
        right. apply Z.shiftl_nonneg, Z.shiftr_nonneg. lia. }
      assert (Hhigh' : forall i : Z, bitsSoFar + t <= i -> Z.testbit (Z.lor res piece) i = false).
      { intros i Hi. rewrite Hor by lia.
        destruct (Z.ltb_spec i bitsSoFar); [lia |].
        destruct (Z.ltb_spec i (bitsSoFar + t)); [lia | reflexivity]. }
      rewrite (wrap32_small_bits (Z.lor res piece) (bitsSoFar + t) Hnn ltac:(lia) Hhigh').
      destruct (IH (numBits - t) 0 (bitsSoFar + t) (Z.lor res piece)
                  ltac:(lia) ltac:(lia) ltac:(lia) ltac:(lia) Hnn Hhigh')
        as [Hr0 Hbits].
      split; [exact Hr0 |]. intros i Hi. rewrite (Hbits i Hi), Hor by exact Hi.
      destruct (Z.ltb_spec i (bitsSoFar + t)) as [Hin | Hout].
      * destruct (Z.ltb_spec i bitsSoFar) as [Hlt | Hge]; [reflexivity |].
        cbn [andb]. rewrite block_bit_cons by lia.
        destruct (Z.ltb_spec i (bitsSoFar + numBits)); [| lia].
        destruct (Z.ltb_spec (offset + (i - bitsSoFar)) 8); [reflexivity | lia].
      * destruct (Z.ltb_spec i bitsSoFar); [lia |].
        replace (bitsSoFar + t + (numBits - t)) with (bitsSoFar + numBits) by lia.
        destruct (Z.ltb_spec i (bitsSoFar + numBits)) as [Hin2 | Hout2]; [| reflexivity].
        cbn [andb]. rewrite block_bit_cons by lia.
        destruct (Z.ltb_spec (offset + (i - bitsSoFar)) 8); [lia |].
        f_equal. lia.
Qed.

Lemma block_bit_skipn (m : nat) (data : list Z) (k : Z) :
  0 <= k ->
  block_bit (skipn m data) k = block_bit data (8 * Z.of_nat m + k).
Proof.
  revert data k. induction m as [| m IH]; intros data k Hk.
  - cbn [skipn]. replace (8 * Z.of_nat 0 + k) with k by lia. reflexivity.
  - destruct data as [| b rest].
    + cbn [skipn]. now rewrite !block_bit_nil.
    + cbn [skipn]. rewrite IH by exact Hk. rewrite (block_bit_cons b rest) by lia.
      destruct (Z.ltb_spec (8 * Z.of_nat (S m) + k) 8); [lia |]. f_equal. lia.
Qed.

Lemma block_bit_prefix (f : list Z -> list Z) (m : nat) (data : list Z) (k : Z) :
  f nil = nil -> 0 <= k ->
  block_bit (firstn m data ++ f (skipn m data)) k
  = if k <? 8 * Z.of_nat m then block_bit data k
    else block_bit (f (skipn m data)) (k - 8 * Z.of_nat m).
Proof.
  intros Hf. revert data k. induction m as [| m IH]; intros data k Hk.
  - cbn [firstn skipn app]. destruct (Z.ltb_spec k (8 * Z.of_nat 0)); [lia |].
    replace (k - 8 * Z.of_nat 0) with k by lia. reflexivity.
  - destruct data as [| b rest].
    + cbn [firstn skipn app]. rewrite Hf, !block_bit_nil.
      now destruct (k <? 8 * Z.of_nat (S m)).
    + cbn [firstn skipn app]. rewrite !block_bit_cons by exact Hk.
      destruct (Z.ltb_spec k 8) as [Hlt | Hge].
      * destruct (Z.ltb_spec k (8 * Z.of_nat (S m))); [reflexivity | lia].
      * rewrite IH by lia.
        destruct (Z.ltb_spec (k - 8) (8 * Z.of_nat m)),
                 (Z.ltb_spec k (8 * Z.of_nat (S m))); try lia; [reflexivity |].
        f_equal. lia.
Qed.

Lemma start_byte_offset (start : Z) :
  0 <= start ->
  Z.shiftr start 3 = start / 8 /\ Z.land start 7 = start mod 8
  /\ 0 <= start / 8 /\ 0 <= start mod 8 < 8
  /\ start = 8 * (start / 8) + start mod 8.
Proof.
  intro H. split; [| split; [| split; [| split]]].
  - now rewrite Z.shiftr_div_pow2 by lia.
  - change 7 with (Z.ones 3). now rewrite Z.land_ones by lia.
  - apply Z.div_pos; lia.
  - apply Z.mod_pos_bound; lia.
  - apply Z.div_mod; lia.
Qed.

Lemma getBitRange_bits (data : list Z) (bitRangeStart numBits : Z) :
  0 <= bitRangeStart -> 0 <= numBits <= 31 ->
  0 <= getBitRange data bitRangeStart numBits < 2 ^ numBits
  /\ forall i : Z, 0 <= i ->
       Z.testbit (getBitRange data bitRangeStart numBits) i
       = (i <? numBits) && block_bit data (bitRangeStart + i).
Proof.
  intros Hs Hn. unfold getBitRange.
  destruct (start_byte_offset bitRangeStart Hs) as (-> & -> & Hq & Hr & Hdm).
  destruct (getBitRange_loop_bits (skipn (Z.to_nat (bitRangeStart / 8)) data)
              numBits (bitRangeStart mod 8) 0 0
              Hr ltac:(lia) ltac:(lia) ltac:(lia) ltac:(lia)
              (fun i _ => Z.bits_0 i)) as [H0 Hbits].
  assert (Hspec : forall i : Z, 0 <= i ->
             Z.testbit (getBitRange_loop (skipn (Z.to_nat (bitRangeStart / 8)) data)
                          numBits (bitRangeStart mod 8) 0 0) i
             = (i <? numBits) && block_bit data (bitRangeStart + i)).
  { intros i Hi. rewrite (Hbits i Hi).
    destruct (Z.ltb_spec i 0); [lia |].
    rewrite block_bit_skipn by lia. rewrite Z2Nat.id by exact Hq.
    do 2 f_equal. lia. }
  split; [| exact Hspec]. split; [exact H0 |].
  apply below_pow2_of_bits; [exact H0 | lia |].
  intros i Hi. rewrite Hspec by lia.
  destruct (Z.ltb_spec i numBits); [lia | reflexivity].
Qed.

Lemma bits_above (v n i : Z) :
  0 <= v < 2 ^ n -> n <= i -> Z.testbit v i = false.
Proof.
  intros [H0 Hlt] Hi.
  destruct (Z.eq_dec v 0) as [-> | Hne]; [apply Z.bits_0 |].
  apply Z.bits_above_log2; [exact H0 |].
  assert (0 <= n).
  { destruct (Z.lt_ge_cases n 0) as [Hneg | Hnn]; [| exact Hnn].
    rewrite Z.pow_neg_r in Hlt by exact Hneg. lia. }
  pose proof (proj1 (Z.log2_lt_pow2 v n ltac:(lia)) Hlt). lia.
Qed.

Lemma not32_bits (z j : Z) :
  0 <= z < 2 ^ 32 -> 0 <= j ->
  Z.testbit (not32 z) j = (j <? 32) && negb (Z.testbit z j).
Proof.
  intros Hz Hj.
  assert (E : not32 z = Z.lnot z mod 2 ^ 32).
  { unfold not32, Z.lnot. apply (Z.mod_unique _ (2 ^ 32) (-1)); lia. }
  rewrite E, Z.testbit_mod_pow2, Z.lnot_spec by lia. reflexivity.
Qed.

Lemma to_unsigned_range (z : Z) : 0 <= to_unsigned z < 2 ^ 32.
Proof. unfold to_unsigned. apply Z.mod_pos_bound. lia. Qed.

Lemma to_unsigned_bits (z j : Z) :
  Z.testbit (to_unsigned z) j = (j <? 32) && Z.testbit z j.
Proof. unfold to_unsigned. apply Z.testbit_mod_pow2. lia. Qed.

(** The mask [setBitRange] starts from: every bit of an [unsigned int] from
    [numBits] upwards. *)
Lemma initial_mask_bits (numBits i : Z) :
  1 <= numBits <= 32 -> 0 <= i ->
  Z.testbit
    (not32 (Z.shiftr (to_unsigned (Z.shiftl (2 ^ 32 - 1) (32 - numBits)))
                     (32 - numBits))) i
  = (numBits <=? i) && (i <? 32).
Proof.
  intros Hn Hi.
  assert (Hr : 0 <= Z.shiftr (to_unsigned (Z.shiftl (2 ^ 32 - 1) (32 - numBits)))
                        (32 - numBits) < 2 ^ 32).
  { pose proof (to_unsigned_range (Z.shiftl (2 ^ 32 - 1) (32 - numBits))) as Hu.
    rewrite Z.shiftr_div_pow2 by lia. split.
    - apply Z.div_pos; [lia |]. apply Z.pow_pos_nonneg; lia.
    - apply Z.div_lt_upper_bound; [apply Z.pow_pos_nonneg; lia |].
      pose proof (Z.pow_pos_nonneg 2 (32 - numBits) ltac:(lia) ltac:(lia)). nia. }
  rewrite not32_bits by (exact Hr || exact Hi).
  rewrite Z.shiftr_spec, to_unsigned_bits, Z.shiftl_spec by lia.
  change (2 ^ 32 - 1) with (Z.ones 32).
  rewrite Z.testbit_ones_nonneg by lia.
  destruct (Z.ltb_spec i 32), (Z.ltb_spec (i + (32 - numBits)) 32),
    (Z.ltb_spec (i + (32 - numBits) - (32 - numBits)) 32), (Z.leb_spec numBits i);
    try reflexivity; lia.
Qed.

(** The byte that one round of [setBitRange] stores. *)
Lemma set_byte_bit (b mask v o n hi j : Z) :
  0 <= o < 8 -> 1 <= n <= 25 -> 0 <= v < 2 ^ n -> n + 7 <= hi ->
  (forall i : Z, 0 <= i -> Z.testbit mask i = (n <=? i) && (i <? hi)) ->
  0 <= j < 8 ->
  Z.testbit
    ((Z.lor (Z.land b
               (Z.lor (to_unsigned (Z.shiftl mask o))
                  (not32 (to_unsigned (Z.shiftl (Z.shiftr (2 ^ 32 - 1) o) o)))))
            (to_unsigned (Z.shiftl (to_unsigned v) o))) mod 256) j
  = if (o <=? j) && (j <? o + jmin_int n (8 - o))
    then Z.testbit v (j - o) else Z.testbit b j.
Proof.
  intros Ho Hn Hv Hhi Hmask Hj.
  assert (Hv32 : to_unsigned v = v).
  { unfold to_unsigned. apply Z.mod_small.
    assert (2 ^ n <= 2 ^ 32) by (apply Z.pow_le_mono_r; lia). lia. }
  change 256 with (2 ^ 8).
  rewrite Z.testbit_mod_pow2, Z.lor_spec, Z.land_spec, Z.lor_spec by lia.
  rewrite not32_bits by (apply to_unsigned_range || lia).
  rewrite !to_unsigned_bits, !Z.shiftl_spec, Hv32 by lia.
  change (2 ^ 32 - 1) with (Z.ones 32).
  destruct (Z.ltb_spec j 8); [| lia]. destruct (Z.ltb_spec j 32); [| lia].
  cbn [andb].
  destruct (jmin_int_cases n (8 - o)) as [[Hc ->] | [Hc ->]];
  destruct (Z.leb_spec o j) as [Hoj | Hjo].
  - (* the range reaches the end of the byte *)
    rewrite Z.shiftr_spec, Z.testbit_ones_nonneg by lia.
    rewrite Hmask by lia.
    destruct (Z.ltb_spec j (o + (8 - o))); [| lia]. cbn [andb].
    destruct (Z.leb_spec n (j - o)); [lia |].
    destruct (Z.ltb_spec (j - o + o) 32); [| lia]. cbn [andb negb].
    rewrite orb_false_r, andb_false_r. reflexivity.
  - rewrite (Z.testbit_neg_r _ (j - o)) by lia.
    rewrite (Z.testbit_neg_r (Z.shiftr _ _) (j - o)) by lia.
    rewrite (Z.testbit_neg_r v (j - o)) by lia.
    cbn [andb negb orb]. rewrite andb_true_r, orb_false_r. reflexivity.
  - (* the range ends inside the byte *)
    rewrite Z.shiftr_spec, Z.testbit_ones_nonneg by lia.
    rewrite Hmask by lia.
    destruct (Z.ltb_spec (j - o + o) 32); [| lia]. cbn [andb negb].
    rewrite orb_false_r.
    destruct (Z.ltb_spec j (o + n)) as [Hin | Hout]; cbn [andb].
    + destruct (Z.leb_spec n (j - o)); [lia |]. cbn [andb].
      rewrite andb_false_r. reflexivity.
    + destruct (Z.leb_spec n (j - o)); [| lia].
      destruct (Z.ltb_spec (j - o) hi); [| lia]. cbn [andb].
      rewrite (bits_above v n (j - o)) by lia.
      rewrite andb_true_r, orb_false_r. reflexivity.
  - rewrite (Z.testbit_neg_r _ (j - o)) by lia.
    rewrite (Z.testbit_neg_r (Z.shiftr _ _) (j - o)) by lia.
    rewrite (Z.testbit_neg_r v (j - o)) by lia.
    cbn [andb negb orb]. rewrite andb_true_r, orb_false_r. reflexivity.
Qed.

Lemma shiftr_small (v n t : Z) :
  0 <= t <= n -> 0 <= v < 2 ^ n -> 0 <= Z.shiftr v t < 2 ^ (n - t).
Proof.
  intros Ht Hv. rewrite Z.shiftr_div_pow2 by lia.
  pose proof (Z.pow_pos_nonneg 2 t ltac:(lia) ltac:(lia)) as Hp.
  split; [apply Z.div_pos; lia |].
  apply Z.div_lt_upper_bound; [lia |].
  rewrite <- Z.pow_add_r by lia. replace (t + (n - t)) with n by lia. lia.
Qed.

Lemma setBitRange_loop_spec (rest : list Z) :
  forall n o v mask hi : Z,
    bytes rest ->
    0 <= o < 8 -> 0 <= n <= 25 -> 0 <= v < 2 ^ n -> n + 7 <= hi ->
    (forall i : Z, 0 <= i -> Z.testbit mask i = (n <=? i) && (i <? hi)) ->
    length (setBitRange_loop rest n o v mask) = length rest
    /\ bytes (setBitRange_loop rest n o v mask)
    /\ forall k : Z, 0 <= k < 8 * Z.of_nat (length rest) ->
         block_bit (setBitRange_loop rest n o v mask) k
         = if (o <=? k) && (k <? o + n) then Z.testbit v (k - o)
           else block_bit rest k.
Proof.
  induction rest as [| b rest' IH]; intros n o v mask hi Hb Ho Hn Hv Hhi Hmask.
  - cbn [setBitRange_loop length]. split; [reflexivity |]. split; [constructor |].
    intros k Hk. lia.
  - cbn [setBitRange_loop].
    destruct (Z.leb_spec n 0) as [Hz | Hpos].
    + split; [reflexivity |]. split; [exact Hb |]. intros k Hk.
      destruct (Z.leb_spec o k), (Z.ltb_spec k (o + n)); try reflexivity; lia.
    + cbv zeta.
      set (t := jmin_int n (8 - o)).
      assert (Ht : 1 <= t <= 8 - o /\ t <= n /\ (t = n \/ t = 8 - o)).
      { unfold t. destruct (jmin_int_cases n (8 - o)) as [[? ->] | [? ->]]; lia. }
      inversion Hb as [| b0 r0 Hb0 Hbr]; subst b0 r0.
      destruct (IH (n - t) 0 (Z.shiftr v t) (Z.shiftr mask t) (hi - t)
                  Hbr ltac:(lia) ltac:(lia) (shiftr_small v n t ltac:(lia) Hv) ltac:(lia))
        as (Hlen & Hbytes & Hbits).
      { intros i Hi. rewrite Z.shiftr_spec, Hmask by lia.
        destruct (Z.leb_spec n (i + t)), (Z.leb_spec (n - t) i),
          (Z.ltb_spec (i + t) hi), (Z.ltb_spec i (hi - t)); try reflexivity; lia. }
      split; [cbn [length]; now rewrite Hlen |]. split.
      * constructor; [| exact Hbytes]. apply Z.mod_pos_bound. lia.
      * intros k Hk. cbn [length] in Hk.
        rewrite !block_bit_cons by lia.
        destruct (Z.ltb_spec k 8) as [Hlt | Hge].
        -- rewrite (set_byte_bit b mask v o n hi k Ho ltac:(lia) Hv Hhi Hmask ltac:(lia)).
           fold t.
           destruct (Z.leb_spec o k), (Z.ltb_spec k (o + t)), (Z.ltb_spec k (o + n));
             try reflexivity; lia.
        -- rewrite Hbits by lia. rewrite Z.shiftr_spec by lia.
           destruct (Z.leb_spec 0 (k - 8)); [| lia].
           destruct (Z.leb_spec o k); [| lia]. cbn [andb].
           destruct (Z.ltb_spec (k - 8) (0 + (n - t))), (Z.ltb_spec k (o + n));
             try reflexivity; try lia.
           f_equal. lia.
Qed.

Lemma bytes_firstn (m : nat) (data : list Z) : bytes data -> bytes (firstn m data).
Proof.
  unfold bytes. intro H. rewrite <- (firstn_skipn m data) in H.
  apply Forall_app in H. tauto.
Qed.

Lemma bytes_skipn (m : nat) (data : list Z) : bytes data -> bytes (skipn m data).
Proof.
  unfold bytes. intro H. rewrite <- (firstn_skipn m data) in H.
  apply Forall_app in H. tauto.
Qed.

Lemma setBitRange_bits (data : list Z) (bitRangeStart numBits bitsToSet : Z) :
  bytes data ->
  0 <= bitRangeStart -> 1 <= numBits <= 25 -> 0 <= bitsToSet < 2 ^ numBits ->
  length (setBitRange data bitRangeStart numBits bitsToSet) = length data
  /\ bytes (setBitRange data bitRangeStart numBits bitsToSet)
  /\ forall k : Z, 0 <= k < 8 * Z.of_nat (length data) ->
       block_bit (setBitRange data bitRangeStart numBits bitsToSet) k
       = if (bitRangeStart <=? k) && (k <? bitRangeStart + numBits)
         then Z.testbit bitsToSet (k - bitRangeStart)
         else block_bit data k.
Proof.
  intros Hb Hs Hn Hv. unfold setBitRange.
  destruct (start_byte_offset bitRangeStart Hs) as (-> & -> & Hq & Hr & Hdm).
  set (m := Z.to_nat (bitRangeStart / 8)).
  set (mask := not32 _).
  destruct (setBitRange_loop_spec (skipn m data) numBits (bitRangeStart mod 8)
              bitsToSet mask 32 (bytes_skipn m data Hb) Hr ltac:(lia) Hv ltac:(lia))
    as (Hlen & Hbytes & Hbits).
  { intros i Hi. unfold mask. apply initial_mask_bits; lia. }
  split; [| split].
  - rewrite length_app, Hlen, <- length_app, firstn_skipn. reflexivity.
  - apply Forall_app. split; [now apply bytes_firstn | exact Hbytes].
  - intros k Hk.
    rewrite (block_bit_prefix
               (fun r => setBitRange_loop r numBits (bitRangeStart mod 8) bitsToSet mask)
               m data k eq_refl ltac:(lia)).
    assert (Hm : Z.of_nat m = bitRangeStart / 8) by (unfold m; lia).
    rewrite Hm.
    destruct (Z.ltb_spec k (8 * (bitRangeStart / 8))) as [Hlow | Hhigh].
    + destruct (Z.leb_spec bitRangeStart k); [lia | reflexivity].
    + destruct (Z.lt_ge_cases (k - 8 * (bitRangeStart / 8))
                  (8 * Z.of_nat (length (skipn m data)))) as [Hin | Hout].
      * rewrite Hbits by lia. rewrite block_bit_skipn, Hm by lia.
        destruct (Z.leb_spec (bitRangeStart mod 8) (k - 8 * (bitRangeStart / 8))),
          (Z.ltb_spec (k - 8 * (bitRangeStart / 8)) (bitRangeStart mod 8 + numBits)),
          (Z.leb_spec bitRangeStart k), (Z.ltb_spec k (bitRangeStart + numBits));
          cbn [andb]; try lia; f_equal; lia.
      * rewrite length_skipn in Hout. lia.
Qed.

(** X25: for up to 31 bits, [getBitRange] returns the number whose bit [i]
    is bit [bitRangeStart + i] of the block, for [i] below [numBits], and
    that has no other bit; bits past the end of the block read as zero. *)
Theorem getBitRange_reads_bits (data : list Z) (bitRangeStart numBits : Z) :
  0 <= bitRangeStart -> 0 <= numBits <= 31 ->
  0 <= getBitRange data bitRangeStart numBits < 2 ^ numBits
  /\ forall i : Z, 0 <= i ->
       Z.testbit (getBitRange data bitRangeStart numBits) i
       = (i <? numBits) && block_bit data (bitRangeStart + i).
Proof. exact (getBitRange_bits data bitRangeStart numBits). Qed.

(** X26: for 1 to 25 bits and a value that fits in them, [setBitRange]
    keeps the size of the block and writes bit [i] of the value to bit
    [bitRangeStart + i] of the block for every such bit that the block has;
    every other bit of the block is left as it was. *)
Theorem setBitRange_writes_range (data : list Z) (bitRangeStart numBits bitsToSet : Z) :
  bytes data ->
  0 <= bitRangeStart -> 1 <= numBits <= 25 -> 0 <= bitsToSet < 2 ^ numBits ->
  length (setBitRange data bitRangeStart numBits bitsToSet) = length data
  /\ bytes (setBitRange data bitRangeStart numBits bitsToSet)
  /\ forall k : Z, 0 <= k < 8 * Z.of_nat (length data) ->
       block_bit (setBitRange data bitRangeStart numBits bitsToSet) k
       = if (bitRangeStart <=? k) && (k <? bitRangeStart + numBits)
         then Z.testbit bitsToSet (k - bitRangeStart)
         else block_bit data k.
Proof. exact (setBitRange_bits data bitRangeStart numBits bitsToSet). Qed.

(** X27: for 1 to 25 bits, a value that fits in them and a range inside the
    block, [getBitRange] reads back what [setBitRange] wrote. *)
Theorem getBitRange_setBitRange (data : list Z) (bitRangeStart numBits bitsToSet : Z) :
  bytes data ->
  0 <= bitRangeStart -> 1 <= numBits <= 25 -> 0 <= bitsToSet < 2 ^ numBits ->
  bitRangeStart + numBits <= 8 * Z.of_nat (length data) ->
  getBitRange (setBitRange data bitRangeStart numBits bitsToSet) bitRangeStart numBits
  = bitsToSet.
Proof.
  intros Hb Hs Hn Hv Hfit.
  destruct (setBitRange_bits data bitRangeStart numBits bitsToSet Hb Hs Hn Hv)
    as (_ & _ & Hset).
  destruct (getBitRange_bits (setBitRange data bitRangeStart numBits bitsToSet)
              bitRangeStart numBits Hs ltac:(lia)) as (_ & Hget).
  apply Z.bits_inj'. intros i Hi. rewrite (Hget i Hi).
  destruct (Z.ltb_spec i numBits) as [Hin | Hout]; cbn [andb].
  - rewrite Hset by lia.
    destruct (Z.leb_spec bitRangeStart (bitRangeStart + i)),
      (Z.ltb_spec (bitRangeStart + i) (bitRangeStart + numBits)); try lia.
    cbn [andb]. f_equal. lia.
  - symmetry. apply (bits_above bitsToSet numBits i Hv Hout).
Qed.

Lemma bytes_example : bytes (255 :: 255 :: 255 :: nil).
Proof. repeat constructor; lia. Qed.

Lemma getBitRange_reads_bits_witness :
  0 <= getBitRange (1 :: 2 :: 3 :: nil) 3 10 < 2 ^ 10
  /\ forall i : Z, 0 <= i ->
       Z.testbit (getBitRange (1 :: 2 :: 3 :: nil) 3 10) i
       = (i <? 10) && block_bit (1 :: 2 :: 3 :: nil) (3 + i).
Proof. apply getBitRange_reads_bits; lia. Defined.

Lemma setBitRange_writes_range_witness :
  length (setBitRange (255 :: 255 :: 255 :: nil) 5 6 45) = 3%nat
  /\ bytes (setBitRange (255 :: 255 :: 255 :: nil) 5 6 45)
  /\ forall k : Z, 0 <= k < 8 * 3 ->
       block_bit (setBitRange (255 :: 255 :: 255 :: nil) 5 6 45) k
       = if (5 <=? k) && (k <? 5 + 6) then Z.testbit 45 (k - 5)
         else block_bit (255 :: 255 :: 255 :: nil) k.
Proof.
  apply (setBitRange_writes_range (255 :: 255 :: 255 :: nil) 5 6 45 bytes_example);
    cbn; lia.
Defined.

Lemma getBitRange_setBitRange_witness :
  getBitRange (setBitRange (255 :: 255 :: 255 :: nil) 5 6 45) 5 6 = 45.
Proof.
  apply (getBitRange_setBitRange (255 :: 255 :: 255 :: nil) 5 6 45 bytes_example);
    cbn; lia.
Defined.

(** Beyond 25 bits the mask of [setBitRange], shifted right as the bytes go
    by, no longer covers the top of the last byte: writing 26 one-bits from
    bit 7 into a block of one-bits clears bit 39, outside the range. *)
Example setBitRange_wide_range_clears_beyond :
  setBitRange (255 :: 255 :: 255 :: 255 :: 255 :: nil) 7 26 (2 ^ 26 - 1)
  = 255 :: 255 :: 255 :: 255 :: 127 :: nil.
Proof. vm_compute. reflexivity. Qed.


(** ** Loading from a hexadecimal string

    The [String] is its sequence of characters (code points, none of them
    zero), after which the character pointer yields the terminator 0.  The
    bytes are written from the start of the block, and the block is then cut
    to the bytes written, so the call leaves exactly those. *)

(** The value that [loadFromHexString] gives a character, if it takes it
    for a digit: ['0'..'9'], ['a'..'z'] and ['A'..'Z'] are all taken. *)
Definition hex_value (c : Z) : option Z :=
  if (48 <=? c) && (c <=? 57) then Some (c - 48)
  else if (97 <=? c) && (c <=? 122) then Some (c - (97 - 10))
  else if (65 <=? c) && (c <=? 90) then Some (c - (65 - 10))
  else None.

(** The innermost loop of [loadFromHexString]: characters are read until
    one is taken for a digit; at the terminator there is none. *)
Fixpoint next_digit (t : list Z) : option (Z * list Z) :=
  match t with
  | nil => None
  | c :: t' =>
      match hex_value c with
      | Some d => Some (d, t')
      | None => next_digit t'
      end
  end.

(** The outer loop: two digits make a byte, [(char) byte]; the terminator,
    wherever it is met, ends the call without another byte. *)
Fixpoint loadFromHexString_loop (fuel : nat) (t : list Z) : list Z :=
  match fuel with
  | O => nil
  | S fuel' =>
      match next_digit t with
      | None => nil
      | Some (d1, t1) =>
          let byte := Z.lor (Z.shiftl 0 4) d1 in
          match next_digit t1 with
          | None => nil
          | Some (d2, t2) =>
              let byte := Z.lor (Z.shiftl byte 4) d2 in
              byte mod 256 :: loadFromHexString_loop fuel' t2
          end
      end
  end.

(** [MemoryBlock::loadFromHexString (hex)]: the bytes of the block after
    the call, for the characters of [hex]. *)
Definition loadFromHexString (hex : list Z) : list Z :=
  loadFromHexString_loop (length hex) hex.

Lemma next_digit_shorter (t t' : list Z) (d : Z) :
  next_digit t = Some (d, t') -> (length t' < length t)%nat.
Proof.
  induction t as [| c t IH]; cbn [next_digit length]; [discriminate |].
  destruct (hex_value c).
  - intro H. injection H as _ <-. lia.
  - intro H. specialize (IH H). lia.
Qed.

(** Two characters at least are read for every byte: the fuel of the model
    never runs out, and the bytes fit the size ensured beforehand. *)
Lemma loadFromHexString_loop_fuel (fuel : nat) :
  forall (t : list Z) (extra : nat),
    (length t <= 2 * fuel + 1)%nat ->
    loadFromHexString_loop (fuel + extra) t = loadFromHexString_loop fuel t
    /\ (2 * length (loadFromHexString_loop fuel t) <= length t)%nat.
Proof.
  induction fuel as [| fuel IH]; intros t extra Hlen.
  - cbn [loadFromHexString_loop Nat.add]. split; [| cbn; lia].
    destruct extra; [reflexivity |]. cbn [loadFromHexString_loop].
    destruct (next_digit t) as [[d1 t1] |] eqn:E1; [| reflexivity].
    pose proof (next_digit_shorter _ _ _ E1) as H1.
    destruct (next_digit t1) as [[d2 t2] |] eqn:E2; [| reflexivity].
    pose proof (next_digit_shorter _ _ _ E2) as H2. lia.
  - cbn [loadFromHexString_loop Nat.add].
    destruct (next_digit t) as [[d1 t1] |] eqn:E1; [| split; [reflexivity | cbn; lia]].
    pose proof (next_digit_shorter _ _ _ E1) as H1.
    destruct (next_digit t1) as [[d2 t2] |] eqn:E2; [| split; [reflexivity | cbn; lia]].
    pose proof (next_digit_shorter _ _ _ E2) as H2.
    destruct (IH t2 extra ltac:(lia)) as [Heq Hle].
    split; [now rewrite Heq | cbn [length]; lia].
Qed.

(** A hexadecimal digit, and its value. *)
Definition is_hex_digit (c : Z) : bool :=
  ((48 <=? c) && (c <=? 57)) || ((97 <=? c) && (c <=? 102))
  || ((65 <=? c) && (c <=? 70)).

Definition digit_value (c : Z) : Z :=
  if c <=? 57 then c - 48 else if c <=? 70 then c - 55 else c - 87.

(** The bytes that a run of hexadecimal digits spells, two digits to a
    byte, the high one first; a last digit on its own spells nothing. *)
Fixpoint bytes_spelt (digits : list Z) : list Z :=
  match digits with
  | hi :: lo :: rest => 16 * digit_value hi + digit_value lo :: bytes_spelt rest
  | _ => nil
  end.

(** A character that is taken for a digit. *)
Definition taken (c : Z) : bool :=
  match hex_value c with Some _ => true | None => false end.

Lemma hex_value_digit (c : Z) :
  is_hex_digit c = true ->
  hex_value c = Some (digit_value c) /\ 0 <= digit_value c < 16.
Proof.
  unfold is_hex_digit, hex_value, digit_value. intro H.
  destruct (Z.leb_spec 48 c), (Z.leb_spec c 57), (Z.leb_spec 97 c),
    (Z.leb_spec c 102), (Z.leb_spec 65 c), (Z.leb_spec c 70),
    (Z.leb_spec c 122), (Z.leb_spec c 90);
    cbn [andb orb] in *; try discriminate; try lia; split; try lia; f_equal; lia.
Qed.

Lemma next_digit_spec (t : list Z) :
  match next_digit t with
  | None => filter taken t = nil
  | Some (d, t') =>
      exists c : Z, hex_value c = Some d /\ filter taken t = c :: filter taken t'
  end.
Proof.
  induction t as [| c t IH]; [reflexivity |].
  cbn [next_digit filter].
  destruct (hex_value c) as [d |] eqn:E.
  - assert (Ht : taken c = true) by (unfold taken; now rewrite E).
    rewrite Ht. exists c. split; [exact E | reflexivity].
  - assert (Ht : taken c = false) by (unfold taken; now rewrite E).
    rewrite Ht. exact IH.
Qed.

Lemma byte_of_digits (d1 d2 : Z) :
  0 <= d1 < 16 -> 0 <= d2 < 16 ->
  Z.lor (Z.shiftl (Z.lor (Z.shiftl 0 4) d1) 4) d2 mod 256 = 16 * d1 + d2.
Proof.
  intros H1 H2. rewrite Z.shiftl_0_l, Z.lor_0_l.
  assert (E : Z.lor (Z.shiftl d1 4) d2 = 16 * d1 + d2).
  { rewrite Z.shiftl_mul_pow2 by lia. change (2 ^ 4) with 16.
    rewrite <- Z.lxor_lor, <- Z.add_nocarry_lxor; try lia.
    - apply Z.bits_inj'. intros i Hi. rewrite Z.land_spec, Z.bits_0.
      destruct (Z.lt_ge_cases i 4).
      + replace (d1 * 16) with (d1 * 2 ^ 4) by lia.
        rewrite Z.mul_pow2_bits_low by lia. reflexivity.
      + rewrite (Z.bits_above_log2 d2 i), andb_false_r; try lia.
        destruct (Z.eq_dec d2 0) as [-> | Hne]; [cbn; lia |].
        pose proof (proj1 (Z.log2_lt_pow2 d2 4 ltac:(lia)) ltac:(lia)). lia.
    - apply Z.bits_inj'. intros i Hi. rewrite Z.land_spec, Z.bits_0.
      destruct (Z.lt_ge_cases i 4).
      + replace (d1 * 16) with (d1 * 2 ^ 4) by lia.
        rewrite Z.mul_pow2_bits_low by lia. reflexivity.
      + rewrite (Z.bits_above_log2 d2 i), andb_false_r; try lia.
        destruct (Z.eq_dec d2 0) as [-> | Hne]; [cbn; lia |].
        pose proof (proj1 (Z.log2_lt_pow2 d2 4 ltac:(lia)) ltac:(lia)). lia. }
  rewrite E. apply Z.mod_small. lia.
Qed.

Lemma loadFromHexString_loop_spells (fuel : nat) :
  forall t : list Z,
    (length t <= 2 * fuel + 1)%nat ->
    Forall (fun c => is_hex_digit c = true) (filter taken t) ->
    loadFromHexString_loop fuel t = bytes_spelt (filter taken t).
Proof.
  induction fuel as [| fuel IH]; intros t Hlen Hdig.
  - cbn [loadFromHexString_loop].
    destruct t as [| c [| c' t]]; cbn [length] in Hlen; try lia; cbn [filter].
    + reflexivity.
    + destruct (taken c); reflexivity.
  - cbn [loadFromHexString_loop].
    pose proof (next_digit_spec t) as S1.
    destruct (next_digit t) as [[d1 t1] |] eqn:E1; [| now rewrite S1].
    destruct S1 as (c1 & Hv1 & F1).
    pose proof (next_digit_shorter _ _ _ E1) as L1.
    pose proof (next_digit_spec t1) as S2.
    destruct (next_digit t1) as [[d2 t2] |] eqn:E2; [| now rewrite F1, S2].
    destruct S2 as (c2 & Hv2 & F2).
    pose proof (next_digit_shorter _ _ _ E2) as L2.
    rewrite F1, F2 in Hdig |- *.
    inversion Hdig as [| ? ? Hc1 Hrest]; subst.
    inversion Hrest as [| ? ? Hc2 Hrest2]; subst.
    destruct (hex_value_digit c1 Hc1) as [Hd1 R1].
    destruct (hex_value_digit c2 Hc2) as [Hd2 R2].
    assert (d1 = digit_value c1) by congruence.
    assert (d2 = digit_value c2) by congruence. subst d1 d2.
    cbn [bytes_spelt]. cbv zeta. rewrite byte_of_digits by assumption.
    f_equal. apply IH; [lia | exact Hrest2].
Qed.

(** X28: [loadFromHexString] never stores more bytes than the
    [hex.length() >> 1] it ensured room for, whatever the characters are;
    the loop ends within the characters of the string (more fuel changes
    nothing). *)
Theorem loadFromHexString_fits (hex : list Z) :
  Z.of_nat (length (loadFromHexString hex)) <= Z.shiftr (Z.of_nat (length hex)) 1
  /\ forall extra : nat,
       loadFromHexString_loop (length hex + extra) hex = loadFromHexString hex.
Proof.
  unfold loadFromHexString.
  split.
  - destruct (loadFromHexString_loop_fuel (length hex) hex 0 ltac:(lia)) as [_ Hle].
    rewrite Z.shiftr_div_pow2 by lia. change (2 ^ 1) with 2.
    apply Z.div_le_lower_bound; lia.
  - intro extra. apply (loadFromHexString_loop_fuel (length hex) hex extra). lia.
Qed.

(** X29: when every character that [loadFromHexString] takes for a digit
    is a hexadecimal digit, the block holds the bytes that those digits
    spell, two to a byte with the high digit first; the characters in
    between are skipped, and a last digit without a partner is dropped. *)
Theorem loadFromHexString_spells (hex : list Z) :
  Forall (fun c => is_hex_digit c = true) (filter taken hex) ->
  loadFromHexString hex = bytes_spelt (filter taken hex).
Proof.
  intro H. unfold loadFromHexString.
  apply loadFromHexString_loop_spells; [lia | exact H].
Qed.

(** The characters of "1f 2E-7": the bytes 0x1f and 0x2e; the last digit
    has no partner. *)
Lemma loadFromHexString_spells_witness :
  loadFromHexString (49 :: 102 :: 32 :: 50 :: 69 :: 45 :: 55 :: nil) = 31 :: 46 :: nil.
Proof.
  rewrite loadFromHexString_spells; [reflexivity |].
  cbn. repeat constructor.
Defined.

End MemoryBlock.
